(** * Retrieval pipeline with multi-provider fallback

    A shallow embedding of the core services of the question-answering
    system: the provider fallback gateway ([services/multi_api_service.py]),
    the vector store ([services/vector_store.py]), the query processor
    ([services/query_processor.py]) and the embedding normalisation step
    ([services/embedding_service.py]).

    Python strings are modelled as [string] (characters are code points
    below 256), dictionaries as [gmap], exceptions as the [Raise] branch
    of [result], the wall clock as an integer number of seconds. *)

From Stdlib Require Import ZArith NArith List Bool Ascii String Lia Permutation Sorted.
From Stdlib Require Import DecimalString.
From stdpp Require Import gmap strings list.
Import ListNotations.

Local Open Scope string_scope.

(** ** Exceptions as values *)

(** [Raise msg] is a raised [Exception] whose [str(e)] is [msg]. *)
Inductive result (A : Type) : Type :=
| Ok (a : A)
| Raise (msg : string).
Arguments Ok {A} a.
Arguments Raise {A} msg.

Definition is_ok {A} (r : result A) : bool :=
  match r with Ok _ => true | Raise _ => false end.

(** ** Text helpers shared by the services *)

Module Text.

Definition code (c : ascii) : nat := nat_of_ascii c.

(** [str.lower()] on one character: A-Z, and the Latin-1 capitals. *)
Definition lower_char (c : ascii) : ascii :=
  let n := code c in
  if (((65 <=? n) && (n <=? 90)) || ((192 <=? n) && (n <=? 222) && negb (n =? 215)))%nat
  then ascii_of_nat (n + 32) else c.

Fixpoint lower (s : string) : string :=
  match s with
  | EmptyString => EmptyString
  | String c s' => String (lower_char c) (lower s')
  end.

Fixpoint startswith (p s : string) : bool :=
  match p, s with
  | EmptyString, _ => true
  | String a p', String b s' => if Ascii.eqb a b then startswith p' s' else false
  | String _ _, EmptyString => false
  end.

(** [term in s] *)
Fixpoint contains (term s : string) : bool :=
  startswith term s ||
  match s with
  | EmptyString => false
  | String _ s' => contains term s'
  end.

Definition newline_char : ascii := ascii_of_nat 10.

End Text.

(** ** The provider fallback gateway: [MultiAPIService] *)

Module MultiAPI.

(** The values of [provider["type"]] that [setup_providers] writes. *)
Inductive provider_type : Type := gemini | openai | perplexity | huggingface.

(** One entry of [self.api_providers], as built by [setup_providers]. *)
Record provider : Type := mk_provider {
  name : string;
  type : provider_type;
  api_key : string;
  model : string;
  embedding_model : option string
}.

(** What an awaited backend call does: it takes [elapsed] seconds of wall
    clock and then returns or raises. *)
Record reply (A : Type) : Type := mk_reply {
  outcome : result A;
  elapsed : N
}.
Arguments mk_reply {A} _ _.
Arguments outcome {A} _.
Arguments elapsed {A} _.

(** One invocation of a registry provider: its index in [api_providers]
    and the clock reading when the call was made. *)
Record call : Type := mk_call { who : nat; started : Z }.

Record MultiAPIService : Type := mk_service {
  api_providers : list provider;
  current_provider_index : nat;
  rate_limit_cooldown : gmap string Z;
  local_llm_available : bool
}.

Definition with_cooldown (s : MultiAPIService) (cd : gmap string Z) : MultiAPIService :=
  {| api_providers := api_providers s;
     current_provider_index := current_provider_index s;
     rate_limit_cooldown := cd;
     local_llm_available := local_llm_available s |}.

Definition with_index (s : MultiAPIService) (i : nat) : MultiAPIService :=
  {| api_providers := api_providers s;
     current_provider_index := i;
     rate_limit_cooldown := rate_limit_cooldown s;
     local_llm_available := local_llm_available s |}.

(** [__init__] followed by [setup_providers] with the registry its
    credentials produce. *)
Definition init (registry : list provider) : MultiAPIService :=
  {| api_providers := registry;
     current_provider_index := 0;
     rate_limit_cooldown := ∅;
     local_llm_available := false |}.

(** [is_provider_available]: [now] is what [time.time()] returns. *)
Definition is_provider_available (s : MultiAPIService) (now : Z) (p : provider)
  : bool * MultiAPIService :=
  match rate_limit_cooldown s !! name p with
  | Some cooldown_until =>
      if (now <? cooldown_until)%Z then (false, s)
      else (true, with_cooldown s (delete (name p) (rate_limit_cooldown s)))
  | None => (true, s)
  end.

Definition set_provider_cooldown (s : MultiAPIService) (now : Z) (p : provider)
    (cooldown_minutes : Z) : MultiAPIService :=
  let cooldown_until := (now + cooldown_minutes * 60)%Z in
  with_cooldown s (<[name p := cooldown_until]> (rate_limit_cooldown s)).

Definition rate_limit_terms : list string :=
  ["rate limit"; "quota"; "429"; "too many requests"].

(** [any(term in error_msg for term in [...])] with
    [error_msg = str(e).lower()]. *)
Definition is_rate_limit_error (msg : string) : bool :=
  let error_msg := Text.lower msg in
  existsb (fun term => Text.contains term error_msg) rate_limit_terms.

Definition all_failed : string := "All API providers failed or are rate limited".

Definition index_error : string := "list index out of range".

(** [(self.current_provider_index + 1) % len(self.api_providers)] *)
Definition advance (s : MultiAPIService) : MultiAPIService :=
  with_index s ((current_provider_index s + 1) mod length (api_providers s)).

(** The [except Exception as e] block of the dispatch loops, together with
    the cursor update that follows it; [now] is the clock when the
    provider's call has failed. *)
Definition on_failure (s : MultiAPIService) (now : Z) (p : provider) (msg : string)
  : MultiAPIService :=
  advance (if is_rate_limit_error msg then set_provider_cooldown s now p 5 else s).

(** What the body of the [try] does for one provider: it awaits the
    provider's capability, or leaves the [try] without calling anything
    (the embedding loop on a provider without embeddings). *)
Inductive attempt (A : Type) : Type :=
| Invoke (r : reply A)
| Unsupported.
Arguments Invoke {A} r.
Arguments Unsupported {A}.

(** The result of a dispatch: what the call returns or raises, the service
    afterwards, the clock afterwards, the provider calls made, in order. *)
Definition run (A : Type) : Type := (result A * MultiAPIService * Z * list call)%type.

Definition calls_of {A} (r : run A) : list call := snd r.
Definition clock_of {A} (r : run A) : Z := snd (fst r).
Definition service_of {A} (r : run A) : MultiAPIService := snd (fst (fst r)).
Definition result_of {A} (r : run A) : result A := fst (fst (fst r)).

Definition add_call {A} (c : call) (r : run A) : run A :=
  (result_of r, service_of r, clock_of r, c :: calls_of r).

Arguments add_call : simpl never.

Section Dispatch.

Context {A : Type}.
(** The [if/elif] chain on [provider["type"]]. *)
Variable body : provider -> attempt A.

(** [for attempt in range(n): ...] followed by the final [raise]. *)
Fixpoint fallback_loop (n : nat) (s : MultiAPIService) (now : Z) : run A :=
  match n with
  | O => (Raise all_failed, s, now, [])
  | S n' =>
      match api_providers s !! current_provider_index s with
      | None => (Raise index_error, s, now, [])
      | Some p =>
          let '(available, s1) := is_provider_available s now p in
          if available then
            match body p with
            | Invoke r =>
                let c := mk_call (current_provider_index s) now in
                let now' := (now + Z.of_N (elapsed r))%Z in
                match outcome r with
                | Ok a => (Ok a, s1, now', [c])
                | Raise msg => add_call c (fallback_loop n' (on_failure s1 now' p msg) now')
                end
            | Unsupported => fallback_loop n' (advance s1) now
            end
          else fallback_loop n' (advance s1) now
      end
  end.

(** The local model is tried first when it is available. *)
Definition dispatch (local : reply A) (s : MultiAPIService) (now : Z) : run A :=
  if local_llm_available s then
    let now' := (now + Z.of_N (elapsed local))%Z in
    match outcome local with
    | Ok a => (Ok a, s, now', [])
    | Raise _ => fallback_loop (length (api_providers s)) s now'
    end
  else fallback_loop (length (api_providers s)) s now.

End Dispatch.

(** The vendor SDKs and the local model server, as opaque capabilities.
    [Emb] is the type of the array a provider's embedding call returns. *)
Record backend (Emb : Type) : Type := mk_backend {
  local_generate_text : string -> string -> reply string;
  local_generate_embeddings : list string -> reply Emb;
  vendor_text : provider -> string -> string -> reply string;
  vendor_embeddings : provider -> list string -> reply Emb
}.
Arguments local_generate_text {Emb} _ _ _.
Arguments local_generate_embeddings {Emb} _ _.
Arguments vendor_text {Emb} _ _ _ _.
Arguments vendor_embeddings {Emb} _ _ _.

Section Gateway.

Context {Emb : Type}.
Variable b : backend Emb.

Definition _generate_gemini_text (prompt context : string) (p : provider) : reply string :=
  vendor_text b p prompt context.
Definition _generate_openai_text (prompt context : string) (p : provider) : reply string :=
  vendor_text b p prompt context.
Definition _generate_perplexity_text (prompt context : string) (p : provider) : reply string :=
  vendor_text b p prompt context.
Definition _generate_huggingface_text (prompt context : string) (p : provider) : reply string :=
  mk_reply (Raise "Hugging Face text generation not implemented yet") 0.

Definition _generate_gemini_embeddings (texts : list string) (p : provider) : reply Emb :=
  vendor_embeddings b p texts.
Definition _generate_openai_embeddings (texts : list string) (p : provider) : reply Emb :=
  vendor_embeddings b p texts.
Definition _generate_huggingface_embeddings (texts : list string) (p : provider) : reply Emb :=
  mk_reply (Raise "Hugging Face embeddings not implemented yet") 0.

(** The [if/elif] chain of [generate_text]: every provider type has a
    text capability. *)
Definition text_reply (prompt context : string) (p : provider) : reply string :=
  match type p with
  | gemini => _generate_gemini_text prompt context p
  | openai => _generate_openai_text prompt context p
  | perplexity => _generate_perplexity_text prompt context p
  | huggingface => _generate_huggingface_text prompt context p
  end.

Definition text_body (prompt context : string) (p : provider) : attempt string :=
  Invoke (text_reply prompt context p).

(** The [if/elif] chain of [generate_embeddings]: a perplexity provider is
    passed over without a call. *)
Definition embeddings_body (texts : list string) (p : provider) : attempt Emb :=
  match type p with
  | gemini => Invoke (_generate_gemini_embeddings texts p)
  | openai => Invoke (_generate_openai_embeddings texts p)
  | perplexity => Unsupported
  | huggingface => Invoke (_generate_huggingface_embeddings texts p)
  end.

Definition generate_text (prompt context : string) (s : MultiAPIService) (now : Z)
  : run string :=
  dispatch (text_body prompt context) (local_generate_text b prompt context) s now.

Definition generate_embeddings (texts : list string) (s : MultiAPIService) (now : Z)
  : run Emb :=
  dispatch (embeddings_body texts) (local_generate_embeddings b texts) s now.

End Gateway.

(** The cursor indexes the registry (or the registry is empty and the
    loops never read it). *)
Definition cursor_in_range (s : MultiAPIService) : Prop :=
  api_providers s = [] \/ current_provider_index s < length (api_providers s).

(** The provider a logged call went to. *)
Definition callee (s : MultiAPIService) (c : call) : option provider :=
  api_providers s !! who c.

(** Loop invariant for a provider name [x] that had a cooldown entry
    expiring at [e] when the dispatch began: the expiry has passed, or the
    name still has an entry expiring no earlier. *)
Definition expiry_guard (x : string) (e : Z) (s : MultiAPIService) (now : Z) : Prop :=
  (e <= now)%Z \/
  exists e', rate_limit_cooldown s !! x = Some e' /\ (e <= e')%Z.

(** The registry indexes visited by [n] iterations that start with the
    cursor at [c], in a registry of [size] providers. *)
Definition rotation (c size n : nat) : list nat :=
  map (fun k => (c + k) mod size) (seq 0 n).

(** No registry provider has a cooldown entry that is still running. *)
Definition none_cooling (s : MultiAPIService) (now : Z) : Prop :=
  forall p e, In p (api_providers s) ->
    rate_limit_cooldown s !! name p = Some e -> (e <= now)%Z.

End MultiAPI.

(** ** The vector store: [VectorStore] *)

Module VectorStore.

Section Store.

(** [Vec] is one row of a float32 embedding array, [Score] a similarity
    score, [inner] the inner product of two rows and [score_geb a b] the
    test [a >= b] on scores. *)
Variables Vec Score : Type.
Variable inner : Vec -> Vec -> Score.
Variable score_geb : Score -> Score -> bool.

(** The embedding service: [encode(texts, normalize=True)] and
    [encode_query(query)], each returning an array or raising. *)
Variable encode : list string -> result (list Vec).
Variable encode_query : string -> result Vec.
(** Whether [_save_index] manages to write its two files. *)
Variable disk_writable : bool.

Record DocumentChunk : Type := mk_chunk {
  id : string;
  content : string;
  embedding : option Vec
}.

Record SearchResult : Type := mk_result {
  chunk : DocumentChunk;
  score : Score;
  rank : nat
}.

(** One entry of a search over the index: the position of a stored row
    and its inner product with the query. *)
Definition hit : Type := (nat * Score)%type.

(** Modelled from the spec: the flat inner-product index
    ([faiss.IndexFlatIP]) behind [self.index], whose code is not part of
    the sources. It holds the stored vectors in insertion order. *)
Definition IndexFlatIP : Type := list Vec.

(** Modelled from the spec: "[reset()]: drop all vectors". *)
Definition IndexFlatIP_reset (index : IndexFlatIP) : IndexFlatIP := [].

(** Modelled from the spec: "[insert_all(vectors)]: append unit-normalized
    vectors in chunk order". *)
Definition IndexFlatIP_add (index : IndexFlatIP) (rows : list Vec) : IndexFlatIP :=
  (index ++ rows)%list.

(** Modelled from the spec: the index size, [index.ntotal]. *)
Definition ntotal (index : IndexFlatIP) : nat := length index.

(** Modelled from the spec: "compute the inner product between [vector]
    and every stored vector"; each score is paired with the position of
    the stored vector. *)
Definition all_hits (index : IndexFlatIP) (q : Vec) : list hit :=
  combine (seq 0 (length index)) (map (inner q) index).

(** Modelled from the spec: "ties broken by lowest original index (stable
    order)": a hit is placed before the first hit whose score is not
    higher than its own. *)
Fixpoint insert_hit (h : hit) (l : list hit) : list hit :=
  match l with
  | [] => [h]
  | h' :: l' =>
      if score_geb (snd h) (snd h') then h :: h' :: l' else h' :: insert_hit h l'
  end.

(** Modelled from the spec: the stored entries from highest score to
    lowest, by stable insertion. *)
Definition rank_hits (l : list hit) : list hit := fold_right insert_hit [] l.

(** Modelled from the spec: "[query(vector, k)]: return the k highest by
    score"; fewer when the index holds fewer than [k] vectors. *)
Definition IndexFlatIP_search (index : IndexFlatIP) (q : Vec) (k : nat) : list hit :=
  firstn k (rank_hits (all_hits index q)).

(** [a] is ranked before [b]: its score is at least [b]'s and, when the
    two scores tie, its position is the lower one. *)
Definition ranked_before (a b : hit) : Prop :=
  score_geb (snd a) (snd b) = true /\
  (score_geb (snd b) (snd a) = true -> fst a < fst b).

Record store : Type := mk_store {
  index : IndexFlatIP;
  chunks : list DocumentChunk;
  _document_hash : option string;
  disk : option (IndexFlatIP * list DocumentChunk)
}.

(** The store after [initialize()] found nothing to load. *)
Definition fresh : store :=
  {| index := []; chunks := []; _document_hash := None; disk := None |}.

(** [_save_index]: a failed write is logged and swallowed. *)
Definition _save_index (s : store) : store :=
  if disk_writable
  then {| index := index s; chunks := chunks s;
          _document_hash := _document_hash s;
          disk := Some (index s, chunks s) |}
  else s.

(** Truth value of [document_hash] in a condition: [None] and the empty
    string are false. *)
Definition truthy (h : option string) : bool :=
  match h with
  | Some (String _ _) => true
  | _ => false
  end.

Definition hash_eqb (a b : option string) : bool :=
  match a, b with
  | Some x, Some y => String.eqb x y
  | None, None => true
  | _, _ => false
  end.

(** [chunk.embedding = embeddings[i].tolist()] for every chunk. *)
Definition set_embeddings (cs : list DocumentChunk) (embeddings : list Vec)
  : list DocumentChunk :=
  map (fun ce => {| id := id (fst ce); content := content (fst ce);
                    embedding := Some (snd ce) |})
      (combine cs embeddings).

(** [add_documents]: what the call returns or raises, the store afterwards,
    and the batches of texts handed to the embedding service. *)
Definition add_documents (s : store) (new_chunks : list DocumentChunk)
    (document_hash : option string)
  : result unit * store * list (list string) :=
  match new_chunks with
  | [] => (Ok tt, s, [])
  | _ :: _ =>
      if truthy document_hash && hash_eqb (_document_hash s) document_hash
         && (0 <? length (chunks s))%nat
      then (Ok tt, s, [])
      else
        let s1 := {| index := IndexFlatIP_reset (index s); chunks := [];
                     _document_hash := _document_hash s; disk := disk s |} in
        let texts := map content new_chunks in
        match encode texts with
        | Raise msg => (Raise msg, s1, [texts])
        | Ok embeddings =>
            if (length embeddings <? length new_chunks)%nat
            then (Raise "index out of bounds", s1, [texts])
            else
              let s2 := {| index := IndexFlatIP_add (index s1) embeddings;
                           chunks := set_embeddings new_chunks embeddings;
                           _document_hash := document_hash;
                           disk := disk s1 |} in
              (Ok tt, _save_index s2, [texts])
        end
  end.

(** The loop of [search] over [zip(scores[0], indices[0])]; [i] counts the
    hits seen so far. *)
Fixpoint results_from (cs : list DocumentChunk) (i : nat) (hits : list hit)
  : list SearchResult :=
  match hits with
  | [] => []
  | (idx, sc) :: rest =>
      match cs !! idx with
      | Some c => mk_result c sc (i + 1) :: results_from cs (S i) rest
      | None => results_from cs (S i) rest
      end
  end.

Definition search (s : store) (query : string) (top_k : nat)
  : result (list SearchResult) :=
  match chunks s with
  | [] => Ok []
  | _ :: _ =>
      match encode_query query with
      | Raise msg => Raise msg
      | Ok query_embedding =>
          let hits := IndexFlatIP_search (index s) query_embedding
                        (Nat.min top_k (length (chunks s))) in
          Ok (results_from (chunks s) 0 hits)
      end
  end.

End Store.

Arguments mk_chunk {Vec} _ _ _.
Arguments id {Vec} _.
Arguments content {Vec} _.
Arguments embedding {Vec} _.
Arguments mk_result {Vec Score} _ _ _.
Arguments chunk {Vec Score} _.
Arguments score {Vec Score} _.
Arguments rank {Vec Score} _.
Arguments mk_store {Vec} _ _ _ _.
Arguments index {Vec} _.
Arguments chunks {Vec} _.
Arguments _document_hash {Vec} _.
Arguments disk {Vec} _.
Arguments fresh {Vec}.
Arguments set_embeddings {Vec} _ _.
Arguments _save_index {Vec} _ _.
Arguments ntotal {Vec} _.
Arguments ranked_before {Score} _ _ _.
Arguments insert_hit {Score} _ _ _.
Arguments rank_hits {Score} _ _.
Arguments all_hits {Vec Score} _ _ _.
Arguments IndexFlatIP_search {Vec Score} _ _ _ _ _.
Arguments add_documents {Vec} _ _ _ _ _.
Arguments search {Vec Score} _ _ _ _ _ _.
Arguments results_from {Vec Score} _ _ _.

End VectorStore.

(** ** The query processor: [QueryProcessor] *)

Module QueryProcessor.
Import Text.

(** [str.isspace()] and the class [\s] on code points below 256. *)
Definition is_space (c : ascii) : bool :=
  let n := code c in
  (((9 <=? n) && (n <=? 13)) || ((28 <=? n) && (n <=? 32))
   || (n =? 133) || (n =? 160))%nat.

Definition is_newline (c : ascii) : bool := (code c =? 10)%nat.

Definition space : ascii := " "%char.

(** [re.sub(cls+, repl, s)]: every maximal run of characters of the class
    becomes one [repl]; [in_run] tells that the previous character was in
    the class. *)
Fixpoint sub_runs (cls : ascii -> bool) (repl : ascii) (in_run : bool) (s : string)
  : string :=
  match s with
  | EmptyString => EmptyString
  | String c s' =>
      if cls c
      then if in_run then sub_runs cls repl true s'
           else String repl (sub_runs cls repl true s')
      else String c (sub_runs cls repl false s')
  end.

Fixpoint lstrip (s : string) : string :=
  match s with
  | EmptyString => EmptyString
  | String c s' => if is_space c then lstrip s' else s
  end.

Fixpoint rstrip (s : string) : string :=
  match s with
  | EmptyString => EmptyString
  | String c s' =>
      match rstrip s' with
      | EmptyString => if is_space c then EmptyString else String c EmptyString
      | String c' r => String c (String c' r)
      end
  end.

(** [s.strip()] *)
Definition strip (s : string) : string := rstrip (lstrip s).

Fixpoint last_char (s : string) : option ascii :=
  match s with
  | EmptyString => None
  | String c EmptyString => Some c
  | String _ s' => last_char s'
  end.

(** [s.endswith((".", "!", "?"))] *)
Definition ends_sentence (s : string) : bool :=
  match last_char s with
  | Some c => existsb (Ascii.eqb c) ["."%char; "!"%char; "?"%char]
  | None => false
  end.

(** The rest of [s] after a prefix that matches [p] (given in lower case)
    without regard to case. *)
Fixpoint after_prefix_ci (p s : string) : option string :=
  match p, s with
  | EmptyString, _ => Some s
  | String a p', String c s' =>
      if Ascii.eqb a (lower_char c) then after_prefix_ci p' s' else None
  | String _ _, EmptyString => None
  end.

(** [re.sub(r'^(Answer:|Response:)\s*', '', answer, flags=re.IGNORECASE)] *)
Definition remove_prefix (answer : string) : string :=
  match after_prefix_ci "answer:" answer with
  | Some rest => lstrip rest
  | None =>
      match after_prefix_ci "response:" answer with
      | Some rest => lstrip rest
      | None => answer
      end
  end.

Definition nonempty (s : string) : bool :=
  match s with EmptyString => false | String _ _ => true end.

Definition _post_process_answer (answer : string) : string :=
  let answer := remove_prefix answer in
  let answer := sub_runs is_newline space false answer in
  let answer := sub_runs is_space space false answer in
  let answer :=
    if nonempty answer && negb (ends_sentence answer)
    then answer ++ "." else answer in
  strip answer.

(** No two neighbouring characters are both the space character. *)
Fixpoint single_spaced (s : string) : bool :=
  match s with
  | String a ((String c _) as s') =>
      negb (Ascii.eqb a space && Ascii.eqb c space) && single_spaced s'
  | _ => true
  end.

Fixpoint has_char (c : ascii) (s : string) : bool :=
  match s with
  | EmptyString => false
  | String a s' => Ascii.eqb a c || has_char c s'
  end.

Definition newline : ascii := ascii_of_nat 10.

Definition first_char (s : string) : option ascii :=
  match s with EmptyString => None | String c _ => Some c end.

(** *** The answering pipeline *)

Section Pipeline.

(** The state of everything outside the processor: the gateway's cursor
    and cooldowns, the remote services, the clock. *)
Variable World : Type.

(** An awaited computation: it runs in a world, returns or raises, and
    leaves a world behind. *)
Definition M (A : Type) : Type := World -> result A * World.

Definition ret {A} (a : A) : M A := fun w => (Ok a, w).

Definition bind {A B} (m : M A) (f : A -> M B) : M B :=
  fun w => match m w with
           | (Ok a, w') => f a w'
           | (Raise e, w') => (Raise e, w')
           end.

(** [try: m except Exception as e: handler(str(e))] *)
Definition try_except {A} (m : M A) (handler : string -> M A) : M A :=
  fun w => match m w with
           | (Ok a, w') => (Ok a, w')
           | (Raise e, w') => handler e w'
           end.

Notation "'await' x ':=' m 'in' k" := (bind m (fun x => k))
  (at level 10, x name, m at level 100, k at level 200).

(** Collaborators: [vector_store.get_relevant_context],
    [multi_api_service.generate_text], and the [text] of
    [model.generate_content(prompt)] of the direct Gemini model. *)
Variable get_relevant_context : string -> nat -> M string.
Variable generate_text : string -> string -> M string.
Variable generate_content : string -> M string.

(** String rewriting inside the processor that cannot raise: the query
    preprocessing, the paragraph scoring fallback (which has its own
    handler) and the prompt template. *)
Variable _preprocess_query : string -> string.
Variable _extract_relevant_sections : string -> string -> string.
Variable _build_prompt : string -> string -> string.

Definition no_response : string :=
  "I apologize, but I couldn't generate a response for your query.".
Definition technical_issue : string :=
  "I apologize, but I'm unable to generate an answer at this time due to a technical issue.".
Definition api_limitations : string :=
  "I apologize, but I'm unable to generate an answer at this time due to API limitations. Please try again in a few minutes.".
Definition processing_error (e : string) : string :=
  "I apologize, but I encountered an error while processing your query: " ++ e.

Definition _generate_answer_gemini_direct (query context : string) : M string :=
  try_except
    (await text := generate_content (_build_prompt query context) in
     if nonempty text
     then ret (_post_process_answer (strip text))
     else ret no_response)
    (fun _ => ret technical_issue).

Definition _generate_answer (query context : string) : M string :=
  try_except
    (try_except
       (await answer := generate_text query context in
        ret (_post_process_answer answer))
       (fun _ => _generate_answer_gemini_direct query context))
    (fun _ => ret api_limitations).

(** [if not context and document_text:
        context = self._extract_relevant_sections(query, document_text)] *)
Definition context_or_sections (query context : string)
    (document_text : option string) : string :=
  match document_text with
  | Some (String _ _ as text) =>
      if nonempty context then context
      else _extract_relevant_sections query text
  | _ => context
  end.

Definition process_query (query : string) (document_text : option string) : M string :=
  try_except
    (await context := get_relevant_context (_preprocess_query query) 2 in
     let context := context_or_sections query context document_text in
     _generate_answer query context)
    (fun e => ret (processing_error e)).

(** [asyncio.gather] over the questions of one request, taken in order:
    the first exception, if any, is the outcome of the whole batch. *)
Fixpoint gather (tasks : list (M string)) : M (list string) :=
  match tasks with
  | [] => ret []
  | t :: rest => await a := t in await l := gather rest in ret (a :: l)
  end.

Definition answer_batch (questions : list string) (document_text : string)
  : M (list string) :=
  gather (map (fun q => process_query q (Some document_text)) questions).

(** A computation that returns in every world. *)
Definition returns {A : Type} (m : M A) : Prop :=
  forall w, exists a w', m w = (Ok a, w').

End Pipeline.

Arguments returns {World A} _.

Definition apologetic (answer : string) : bool := startswith "I apologize" answer.

End QueryProcessor.

(** ** Normalisation of embeddings

    The last lines of [_generate_gemini_embeddings],
    [_generate_openai_embeddings] and [_encode_with_gemini]. The arrays
    hold float32 values; the element type and numpy's operations on it
    are parameters, so nothing is said here about how they round,
    overflow or treat NaN. *)

Module Normalization.

Section Float32.

(** An element of a [np.float32] array. *)
Variable float32 : Type.
(** [np.linalg.norm] of one row (the rows of [axis=1]). *)
Variable norm : list float32 -> float32.
(** [+] and [/] on float32 values. *)
Variable add : float32 -> float32 -> float32.
Variable divide : float32 -> float32 -> float32.
(** [1e-8] as a float32 value. *)
Variable epsilon : float32.

(** One row of [embeddings_array / (norms + 1e-8)]. *)
Definition normalize_row (row : list float32) : list float32 :=
  map (fun x => divide x (add (norm row) epsilon)) row.

(** [norms = np.linalg.norm(embeddings_array, axis=1, keepdims=True)]
    followed by [embeddings_array / (norms + 1e-8)]. *)
Definition normalize_rows (embeddings_array : list (list float32))
  : list (list float32) :=
  map normalize_row embeddings_array.

End Float32.

End Normalization.

(** ** Sample registries, backends and stores *)

Module Examples.
Import MultiAPI.

Definition gemini_1 : provider :=
  mk_provider "gemini_1" gemini "key-1" "gemini-1.5-flash" (Some "models/embedding-001").
Definition openai_1 : provider :=
  mk_provider "openai" openai "key-2" "gpt-3.5-turbo" (Some "text-embedding-ada-002").
Definition perplexity_1 : provider :=
  mk_provider "perplexity" perplexity "key-3" "sonar-pro" None.

Definition array : Type := list (list Z).

Definition no_local {A : Type} : reply A :=
  mk_reply (Raise "connection refused") 0.

(** Every remote provider answers, after one second. *)
Definition all_up : backend array :=
  mk_backend array (fun _ _ => no_local) (fun _ => no_local)
    (fun _ _ _ => mk_reply (Ok "30 days") 1)
    (fun _ texts => mk_reply (Ok (map (fun _ => [1; 0]%Z) texts)) 1).

(** Every remote provider fails, after one second. *)
Definition all_down : backend array :=
  mk_backend array (fun _ _ => no_local) (fun _ => no_local)
    (fun _ _ _ => mk_reply (Raise "503 Service Unavailable") 1)
    (fun _ _ => mk_reply (Raise "503 Service Unavailable") 1).

(** The first Gemini key is out of quota and says so after two seconds;
    the other providers answer. *)
Definition gemini_out_of_quota : backend array :=
  mk_backend array (fun _ _ => no_local) (fun _ => no_local)
    (fun p _ _ =>
       if String.eqb (name p) "gemini_1"
       then mk_reply (Raise "Error 429: Quota exceeded for this key") 2
       else mk_reply (Ok "30 days") 1)
    (fun p texts =>
       if String.eqb (name p) "gemini_1"
       then mk_reply (Raise "Error 429: Quota exceeded for this key") 2
       else mk_reply (Ok (map (fun _ => [1; 0]%Z) texts)) 1).

(** Only the first Gemini key answers; the others time out. *)
Definition only_gemini : backend array :=
  mk_backend array (fun _ _ => no_local) (fun _ => no_local)
    (fun p _ _ =>
       if String.eqb (name p) "gemini_1"
       then mk_reply (Ok "30 days") 1
       else mk_reply (Raise "Read timed out") 30)
    (fun p texts =>
       if String.eqb (name p) "gemini_1"
       then mk_reply (Ok (map (fun _ => [1; 0]%Z) texts)) 1
       else mk_reply (Raise "Read timed out") 30).

(** Two providers, nothing in cooldown, cursor on the first. *)
Definition two_providers : MultiAPIService :=
  mk_service [gemini_1; openai_1] 0 ∅ false.

(** The same registry with [openai] in cooldown until second 100. *)
Definition openai_cooling : MultiAPIService :=
  mk_service [gemini_1; openai_1] 0 {[ "openai" := 100%Z ]} false.

(** Three providers, cursor on the second. *)
Definition three_providers : MultiAPIService :=
  mk_service [gemini_1; openai_1; perplexity_1] 1 ∅ false.

(** A vector store over integer vectors. *)
Definition dot (u v : list Z) : Z :=
  fold_right Z.add 0%Z (map (fun xy => (fst xy * snd xy)%Z) (combine u v)).

Definition embed_text (text : string) : list Z :=
  if Text.contains "grace" text then [1; 0]%Z else [0; 1]%Z.

Definition encode (texts : list string) : result (list (list Z)) :=
  Ok (map embed_text texts).

Definition encode_query (query : string) : result (list Z) :=
  Ok (embed_text query).

Definition chunk_0 : VectorStore.DocumentChunk (list Z) :=
  VectorStore.mk_chunk "chunk_0" "The grace period is 30 days." None.
Definition chunk_1 : VectorStore.DocumentChunk (list Z) :=
  VectorStore.mk_chunk "chunk_1" "Maternity cover starts after 24 months." None.
Definition chunk_2 : VectorStore.DocumentChunk (list Z) :=
  VectorStore.mk_chunk "chunk_2" "A grace of 15 days applies to renewals." None.

(** The store after a first load of the three chunks. *)
Definition loaded : VectorStore.store (list Z) :=
  snd (fst (VectorStore.add_documents encode true VectorStore.fresh
              [chunk_0; chunk_1; chunk_2] (Some "9e107d9d372bb6826bd81d3542a419d6"))).

(** A pipeline whose world counts the calls made to collaborators: the
    retrieval always finds the chunk, the gateway fails on the question
    "q3" and answers the others, the direct model is out of quota. *)
Definition retrieve_chunk (query : string) (max_chunks : nat)
  : QueryProcessor.M nat string :=
  fun w => (Ok "The grace period is 30 days.", S w).

Definition gateway_fails_on_q3 (query context : string) : QueryProcessor.M nat string :=
  fun w =>
    if String.eqb query "q3" then (Raise "Read timed out", S w)
    else (Ok ("Answer:  " ++ context), S w).

Definition direct_model_down (prompt : string) : QueryProcessor.M nat string :=
  fun w => (Raise "429 quota exceeded", S w).

Definition answer_sample_batch (questions : list string)
  : QueryProcessor.M nat (list string) :=
  QueryProcessor.answer_batch nat retrieve_chunk gateway_fails_on_q3 direct_model_down
    (fun query => query) (fun _ text => text) (fun query context => context)
    questions "The grace period is 30 days.".

End Examples.

(** ** Two statements as the specification words them

    Each follows the wording of the specification, to be compared with
    what the definitions above do. *)

Module Claimed.
Import MultiAPI.

(** "A dispatch call started while the current time is strictly before a
    provider's cooldown expiry never invokes that provider." *)
Definition cooldown_window : Prop :=
  forall (b : backend Examples.array) (prompt context : string)
         (s : MultiAPIService) (p : provider) (e now : Z),
    rate_limit_cooldown s !! name p = Some e ->
    (now < e)%Z ->
    forall c, In c (calls_of (generate_text b prompt context s now)) ->
      callee s c <> Some p.

(** "After every dispatch call that attempted at least one registry
    provider, the rotation cursor points to the provider immediately after
    (modulo registry size) whichever provider was last attempted." *)
Definition cursor_after_last_attempt : Prop :=
  forall (b : backend Examples.array) (prompt context : string)
         (s : MultiAPIService) (now : Z),
    cursor_in_range s ->
    let out := generate_text b prompt context s now in
    forall l c, calls_of out = (l ++ [c])%list ->
      current_provider_index (service_of out)
        = (who c + 1) mod length (api_providers s).

End Claimed.

(** ** The provider registry: [setup_providers] and
    [get_current_provider_info] *)

Module Registry.
Import MultiAPI.

(** The fields of [config.Settings] the gateway reads. *)
Record Settings : Type := mk_settings {
  gemini_api_key : string;
  gemini_api_key_2 : option string;
  gemini_api_key_3 : option string;
  openai_api_key : option string;
  openai_model : string;
  huggingface_api_key : option string;
  perplexity_api_key : option string;
  perplexity_model : string;
  gemini_model : string;
  gemini_embedding_model : string
}.

(** [str(n)] for a non-negative integer. *)
Definition str (n : nat) : string := NilZero.string_of_uint (Nat.to_uint n).

(** Truth value of an optional key: [None] and the empty string are false. *)
Definition key_set (key : option string) : bool :=
  match key with
  | Some (String _ _) => true
  | _ => false
  end.

(** [key and key != "your_gemini_api_key_here"] *)
Definition usable_gemini_key (key : option string) : bool :=
  match key with
  | Some k => key_set key && negb (String.eqb k "your_gemini_api_key_here")
  | None => false
  end.

(** [for i, key in enumerate(gemini_keys)], from position [i] on. *)
Fixpoint gemini_providers (cfg : Settings) (i : nat) (keys : list (option string))
  : list provider :=
  match keys with
  | [] => []
  | key :: rest =>
      match key with
      | Some k =>
          if usable_gemini_key key
          then mk_provider ("gemini_" ++ str (i + 1)) gemini k (gemini_model cfg)
                 (Some (gemini_embedding_model cfg))
               :: gemini_providers cfg (S i) rest
          else gemini_providers cfg (S i) rest
      | None => gemini_providers cfg (S i) rest
      end
  end.

Definition key_of (key : option string) : string :=
  match key with Some k => k | None => "" end.

(** [setup_providers]; the two flags are [OPENAI_AVAILABLE] and
    [HUGGINGFACE_AVAILABLE], set when the modules are imported. *)
Definition setup_providers (cfg : Settings) (openai_available huggingface_available : bool)
  : list provider :=
  (gemini_providers cfg 0
     [Some (gemini_api_key cfg); gemini_api_key_2 cfg; gemini_api_key_3 cfg]
   ++ (if openai_available && key_set (openai_api_key cfg)
       then [mk_provider "openai" openai (key_of (openai_api_key cfg))
               (openai_model cfg) (Some "text-embedding-ada-002")]
       else [])
   ++ (if key_set (perplexity_api_key cfg)
       then [mk_provider "perplexity" perplexity (key_of (perplexity_api_key cfg))
               (perplexity_model cfg) None]
       else [])
   ++ (if huggingface_available && key_set (huggingface_api_key cfg)
       then [mk_provider "huggingface" huggingface (key_of (huggingface_api_key cfg))
               "microsoft/DialoGPT-medium"
               (Some "sentence-transformers/all-MiniLM-L6-v2")]
       else []))%list.

(** [MultiAPIService()] *)
Definition new_service (cfg : Settings) (openai_available huggingface_available : bool)
  : MultiAPIService :=
  init (setup_providers cfg openai_available huggingface_available).

(** The string [setup_providers] stores under ["type"]. *)
Definition type_name (t : provider_type) : string :=
  match t with
  | gemini => "gemini"
  | openai => "openai"
  | perplexity => "perplexity"
  | huggingface => "huggingface"
  end.

(** The dictionary [get_current_provider_info] returns; [cooldowns] is the
    set of the keys of the cooldown table. *)
Record provider_info : Type := mk_info {
  info_name : string;
  info_type : string;
  available_providers : nat;
  cooldowns : gset string
}.

Definition get_current_provider_info (s : MultiAPIService) : result provider_info :=
  match api_providers s with
  | [] => Ok (mk_info "none" "none" 0 ∅)
  | _ :: _ =>
      match api_providers s !! current_provider_index s with
      | Some p =>
          Ok (mk_info (name p) (type_name (type p)) (length (api_providers s))
                (dom (rate_limit_cooldown s)))
      | None => Raise index_error
      end
  end.

(** [MultiAPIService.initialize]: the outcome of
    [local_llm_service.initialize()] decides whether the local model is
    tried first; an exception counts as unavailable. *)
Definition initialize (s : MultiAPIService) (local_initialize : result bool)
  : MultiAPIService :=
  {| api_providers := api_providers s;
     current_provider_index := current_provider_index s;
     rate_limit_cooldown := rate_limit_cooldown s;
     local_llm_available :=
       match local_initialize with Ok available => available | Raise _ => false end |}.

(** A sample configuration: two Gemini keys (the second slot left at its
    placeholder), and a Perplexity key. *)
Definition sample_settings : Settings :=
  mk_settings "AIza-1" (Some "your_gemini_api_key_here") (Some "AIza-3")
    None "gpt-3.5-turbo" None (Some "pplx-1") "sonar-large-chat"
    "gemini-1.5-flash" "models/embedding-001".

End Registry.

(** ** The rest of the vector store: context assembly, persistence,
    statistics *)

Module VectorStoreIO.
Import VectorStore.

(** [sep.join(parts)] *)
Fixpoint join (sep : string) (parts : list string) : string :=
  match parts with
  | [] => ""
  | [part] => part
  | part :: rest => part ++ sep ++ join sep rest
  end.

Definition blank_line : string := String Text.newline_char (String Text.newline_char "").

Section Context.

Variables Vec Score : Type.
Variable inner : Vec -> Vec -> Score.
Variable score_geb : Score -> Score -> bool.
Variable encode_query : string -> result Vec.
(** [f"{score:.3f}"] *)
Variable format_score : Score -> string.

Definition context_part (r : SearchResult Vec Score) : string :=
  "[Score: " ++ format_score (score r) ++ "] " ++ content (chunk r).

(** [get_relevant_context]: any exception of the search is logged and
    turned into the empty context. *)
Definition get_relevant_context (s : store Vec) (query : string) (max_chunks : nat)
  : string :=
  match search inner score_geb encode_query s query max_chunks with
  | Raise _ => ""
  | Ok [] => ""
  | Ok search_results => join blank_line (map context_part search_results)
  end.

End Context.

Section Persistence.

Variable Vec : Type.

(** [VectorStore()] in a process that finds [files] on disk. *)
Definition new_store (files : option (IndexFlatIP Vec * list (DocumentChunk Vec)))
  : store Vec :=
  {| index := []; chunks := []; _document_hash := None; disk := files |}.

(** [_load_index]: both files are read when both exist; [readable] tells
    whether reading them succeeds; a failure resets index and chunks. *)
Definition _load_index (readable : bool) (s : store Vec) : store Vec :=
  match disk s with
  | Some (saved_index, saved_chunks) =>
      if readable
      then {| index := saved_index; chunks := saved_chunks;
              _document_hash := _document_hash s; disk := disk s |}
      else {| index := []; chunks := [];
              _document_hash := _document_hash s; disk := disk s |}
  | None => s
  end.

(** [initialize]: the embedding service is initialised first and its
    exception propagates; then a new flat index is created and the saved
    one loaded over it. *)
Definition initialize (embedding_service_initialize : result unit) (readable : bool)
    (s : store Vec) : result (store Vec) :=
  match embedding_service_initialize with
  | Raise msg => Raise msg
  | Ok _ =>
      Ok (_load_index readable
            {| index := []; chunks := chunks s;
               _document_hash := _document_hash s; disk := disk s |})
  end.

(** The numbers of [get_stats]. *)
Record stats : Type := mk_stats { total_chunks : nat; index_size : nat }.

Definition get_stats (s : store Vec) : stats :=
  mk_stats (length (chunks s)) (ntotal (index s)).

End Persistence.

Arguments get_relevant_context {Vec Score} _ _ _ _ _ _ _.
Arguments context_part {Vec Score} _ _.
Arguments new_store {Vec} _.
Arguments _load_index {Vec} _ _.
Arguments initialize {Vec} _ _ _.
Arguments get_stats {Vec} _.

End VectorStoreIO.

(** ** The text functions of the query processor *)

Module QueryText.
Import Text QueryProcessor.

(** The class [\w] on code points below 256. *)
Definition is_word (c : ascii) : bool :=
  let n := code c in
  (((48 <=? n) && (n <=? 57)) || ((65 <=? n) && (n <=? 90)) || (n =? 95)
   || ((97 <=? n) && (n <=? 122))
   || (n =? 170) || (n =? 178) || (n =? 179) || (n =? 181) || (n =? 185)
   || (n =? 186) || ((188 <=? n) && (n <=? 190))
   || ((192 <=? n) && (n <=? 214)) || ((216 <=? n) && (n <=? 246))
   || ((248 <=? n) && (n <=? 255)))%nat.

Definition stop_words : list string :=
  ["what"; "how"; "when"; "where"; "why"; "does"; "is"; "are"; "can"; "will";
   "would"].

Definition is_stop_word (word : string) : bool :=
  existsb (String.eqb (lower word)) stop_words.

Definition keep_word (word : string) : string :=
  if is_stop_word word then "" else word.

(** [re.sub(r'\b(what|how|...|would)\b', '', query, flags=re.IGNORECASE)]:
    a match is a maximal run of word characters that spells one of the
    words in any case; [word] is the run read so far. *)
Fixpoint remove_stop_words_from (word : string) (s : string) : string :=
  match s with
  | EmptyString => keep_word word
  | String c s' =>
      if is_word c
      then remove_stop_words_from (word ++ String c "") s'
      else keep_word word ++ String c (remove_stop_words_from "" s')
  end.

Definition remove_stop_words (query : string) : string :=
  remove_stop_words_from "" query.

Definition insurance_terms : list string :=
  ["premium"; "policy"; "coverage"; "deductible"; "claim"; "benefit";
   "waiting period"; "grace period"; "exclusion"; "maternity";
   "pre-existing"; "surgery"; "hospital"; "treatment"; "discount"].

Definition _extract_key_terms (query : string) : list string :=
  let query_lower := lower query in
  filter (fun term => contains term query_lower) insurance_terms.

Definition _preprocess_query (query : string) : string :=
  let query := remove_stop_words query in
  let query := strip (sub_runs is_space space false query) in
  match _extract_key_terms query with
  | [] => query
  | key_terms => query ++ " " ++ VectorStoreIO.join " " key_terms
  end.

(** [s.split(sep)] for a one-character separator. *)
Fixpoint split_on (sep : ascii) (s : string) : list string :=
  match s with
  | EmptyString => [""]
  | String c s' =>
      match split_on sep s' with
      | piece :: rest =>
          if Ascii.eqb c sep then "" :: piece :: rest else String c piece :: rest
      | [] => []
      end
  end.

(** [s.split()]: the maximal runs of characters that are not white
    space; [word] is the run read so far. *)
Fixpoint words_from (word : string) (s : string) : list string :=
  match s with
  | EmptyString => if nonempty word then [word] else []
  | String c s' =>
      if is_space c
      then if nonempty word then word :: words_from "" s' else words_from "" s'
      else words_from (word ++ String c "") s'
  end.

(** [set(query.lower().split())] *)
Definition query_terms (query : string) : gset string :=
  list_to_set (words_from "" (lower query)).

(** [sum(1 for term in query_terms if term in para_lower)] *)
Definition paragraph_score (terms : gset string) (para : string) : nat :=
  size (filter (fun term => contains term (lower para) = true) terms).

Definition scored_paragraphs (query document_text : string) : list (nat * string) :=
  let terms := query_terms query in
  flat_map
    (fun para =>
       if (String.length (strip para) <? 20)%nat then []
       else let score := paragraph_score terms para in
            if (0 <? score)%nat then [(score, para)] else [])
    (split_on newline document_text).

(** [sort(key=lambda x: x[0], reverse=True)]: highest score first,
    paragraphs of equal score in document order. *)
Fixpoint insert_scored (x : nat * string) (l : list (nat * string))
  : list (nat * string) :=
  match l with
  | [] => [x]
  | y :: l' => if (fst y <=? fst x)%nat then x :: y :: l' else y :: insert_scored x l'
  end.

Definition sort_scored (l : list (nat * string)) : list (nat * string) :=
  fold_right insert_scored [] l.

Definition paragraph_break : string := String newline (String newline "").

(** The loop that fills [context] up to [max_length] and stops at the
    first paragraph that does not fit. *)
Fixpoint take_paragraphs (max_length : nat) (context : string)
    (l : list (nat * string)) : string :=
  match l with
  | [] => context
  | (_, para) :: rest =>
      if (String.length context + String.length para <=? max_length)%nat
      then take_paragraphs max_length (context ++ para ++ paragraph_break) rest
      else context
  end.

Definition _extract_relevant_sections (query document_text : string)
    (max_length : nat) : string :=
  strip (take_paragraphs max_length ""
           (sort_scored (scored_paragraphs query document_text))).

(** [context += para + "\n\n"] for each of the paragraphs, in order. *)
Definition paragraphs_text (l : list (nat * string)) : string :=
  fold_right (fun x acc => snd x ++ paragraph_break ++ acc) "" l.

(** The only white space in [s] is single spaces between other
    characters. *)
Definition tidy (s : string) : Prop :=
  single_spaced s = true /\
  (forall c, has_char c s = true -> is_space c = true -> c = space) /\
  (forall c, first_char s = Some c -> is_space c = false) /\
  (forall c, last_char s = Some c -> is_space c = false).

Fixpoint all_chars (test : ascii -> bool) (s : string) : bool :=
  match s with
  | EmptyString => true
  | String c s' => test c && all_chars test s'
  end.

Definition not_space (c : option ascii) : bool :=
  match c with Some a => negb (is_space a) | None => true end.

(** A test for [tidy]. *)
Definition tidyb (s : string) : bool :=
  single_spaced s
  && all_chars (fun c => negb (is_space c) || Ascii.eqb c space) s
  && not_space (first_char s) && not_space (last_char s).

(** One line, single-spaced, closed by a full stop, an exclamation mark or
    a question mark unless empty. *)
Definition well_formed_answer (answer : string) : Prop :=
  has_char newline answer = false /\
  single_spaced answer = true /\
  (answer <> "" -> ends_sentence answer = true).

End QueryText.

(** ** The embedding service: [EmbeddingService.encode] *)

Module EmbeddingService.
Import MultiAPI.

Section Encode.

Context {Emb : Type}.
(** The gateway's providers, and the direct calls of the service itself:
    [_encode_with_gemini] and [_encode_with_sentence_transformers]. *)
Variable b : backend Emb.
Variable _encode_with_gemini : list string -> reply Emb.
Variable _encode_with_sentence_transformers : list string -> bool -> reply Emb.

Record service : Type := mk_embedding_service {
  provider : string;
  multi_api_service : MultiAPIService
}.

(** What [encode] returns or raises, the service afterwards, the clock
    afterwards, the registry calls made, and whether the direct Gemini
    call was made. *)
Record encoded : Type := mk_encoded {
  encode_result : result Emb;
  encode_service : service;
  encode_clock : Z;
  gateway_calls : list call;
  direct_call : bool
}.

Definition unsupported (name : string) : string := "Unsupported provider: " ++ name.

(** [encode]; the [except] branch retries with the direct Gemini call
    when the provider is ["multi"] and raises the first error again when
    that fails too or the provider is another one. *)
Definition encode (svc : service) (texts : list string) (normalize : bool) (now : Z)
  : encoded :=
  if String.eqb (provider svc) "multi" then
    let out := generate_embeddings b texts (multi_api_service svc) now in
    let svc' := mk_embedding_service (provider svc) (service_of out) in
    match result_of out with
    | Ok embeddings => mk_encoded (Ok embeddings) svc' (clock_of out) (calls_of out) false
    | Raise e =>
        let direct := _encode_with_gemini texts in
        let finished := (clock_of out + Z.of_N (elapsed direct))%Z in
        match outcome direct with
        | Ok embeddings => mk_encoded (Ok embeddings) svc' finished (calls_of out) true
        | Raise _ => mk_encoded (Raise e) svc' finished (calls_of out) true
        end
    end
  else if String.eqb (provider svc) "gemini" then
    let direct := _encode_with_gemini texts in
    mk_encoded (outcome direct) svc (now + Z.of_N (elapsed direct))%Z [] true
  else if String.eqb (provider svc) "sentence-transformers" then
    let local := _encode_with_sentence_transformers texts normalize in
    mk_encoded (outcome local) svc (now + Z.of_N (elapsed local))%Z [] false
  else mk_encoded (Raise (unsupported (provider svc))) svc now [] false.

End Encode.

End EmbeddingService.

(** ** The request handler: [run_query_internal] *)

Module Main.
Import QueryProcessor.

Section Handler.

Variable World : Type.
Variable Chunk : Type.

(** The document processor, the vector store and the digest. *)
Variable process_document : string -> M World string.
Variable chunk_text : string -> M World (list Chunk).
Variable add_documents : list Chunk -> string -> M World unit.
Variable md5_hexdigest : string -> string.
(** [query_processor.process_query] *)
Variable process_query : string -> option string -> M World string.

Record QueryRequest : Type := mk_request {
  documents : string;
  questions : list string
}.

(** The detail of the [HTTPException(status_code=500, ...)]. *)
Definition internal_server_error (e : string) : string :=
  "Internal server error: " ++ e.

Definition raise {A : Type} (msg : string) : M World A := fun w => (Raise msg, w).

Definition run_query_internal (request : QueryRequest) : M World (list string) :=
  try_except World
    (bind World (process_document (documents request)) (fun document_text =>
     let document_hash := md5_hexdigest document_text in
     bind World (chunk_text document_text) (fun chunks =>
     bind World (add_documents chunks document_hash) (fun _ =>
     gather World
       (map (fun question => process_query question (Some document_text))
            (questions request))))))
    (fun e => raise (internal_server_error e)).

End Handler.

End Main.

(** ** Batched embedding requests: [_generate_gemini_embeddings] *)

Module GeminiEmbeddings.

Section Batches.

(** float32 values and numpy's operations on them, as in
    [Normalization]. *)
Variable float32 : Type.
Variable norm : list float32 -> float32.
Variable add : float32 -> float32 -> float32.
Variable divide : float32 -> float32 -> float32.
Variable epsilon : float32.

(** [np.array(genai.embed_content(model=..., content=text,
    ...)['embedding'], dtype=np.float32)] *)
Variable embed_content : string -> result (list float32).

(** What the function returns or raises, the texts sent to the service
    in order, and the number of pauses taken between batches. *)
Definition requested : Type := (result (list (list float32)) * list string * nat)%type.

(** [for text in batch] *)
Fixpoint embed_each (batch : list string) : result (list (list float32)) * list string :=
  match batch with
  | [] => (Ok [], [])
  | text :: rest =>
      match embed_content text with
      | Raise msg => (Raise msg, [text])
      | Ok row =>
          match embed_each rest with
          | (Ok rows, sent) => (Ok (row :: rows), text :: sent)
          | (Raise msg, sent) => (Raise msg, text :: sent)
          end
      end
  end.

Definition batch_size : nat := 10.

(** [for i in range(0, len(texts), batch_size)], on the texts from
    position [i] on; [fuel] bounds the number of batches. *)
Fixpoint batch_loop (fuel : nat) (remaining : list string) : requested :=
  match fuel with
  | O => (Ok [], [], 0)
  | S fuel' =>
      match remaining with
      | [] => (Ok [], [], 0)
      | _ :: _ =>
          let batch := firstn batch_size remaining in
          let rest := skipn batch_size remaining in
          match embed_each batch with
          | (Raise msg, sent) => (Raise msg, sent, 0)
          | (Ok rows, sent) =>
              let pause := match rest with [] => 0 | _ :: _ => 1 end in
              match batch_loop fuel' rest with
              | (Ok rows', sent', pauses) =>
                  (Ok (rows ++ rows')%list, (sent ++ sent')%list, pause + pauses)
              | (Raise msg, sent', pauses) =>
                  (Raise msg, (sent ++ sent')%list, pause + pauses)
              end
          end
      end
  end.

(** [np.vstack(embeddings)]: it needs at least one row, and rows of one
    length. *)
Definition vstack (rows : list (list float32)) : result (list (list float32)) :=
  match rows with
  | [] => Raise "need at least one array to concatenate"
  | row :: rest =>
      if forallb (fun r => Nat.eqb (length r) (length row)) rest
      then Ok rows
      else Raise "all the input array dimensions except for the concatenation axis must match exactly"
  end.

Definition _generate_gemini_embeddings (texts : list string) : requested :=
  match batch_loop (length texts) texts with
  | (Raise msg, sent, pauses) => (Raise msg, sent, pauses)
  | (Ok embeddings, sent, pauses) =>
      match vstack embeddings with
      | Raise msg => (Raise msg, sent, pauses)
      | Ok embeddings_array =>
          (Ok (Normalization.normalize_rows float32 norm add divide epsilon
                embeddings_array), sent, pauses)
      end
  end.

End Batches.

End GeminiEmbeddings.

(** ** Successive dispatches on one service *)

Module History.
Import MultiAPI.

(** The services and clock readings that follow a service [s] at time
    [now] when further dispatches ([generate_text] or
    [generate_embeddings], with any provider behaviour) run on it one
    after the other, time passing between them. *)
Inductive later_on (s : MultiAPIService) (now : Z) : MultiAPIService -> Z -> Prop :=
| later_on_here : later_on s now s now
| later_on_wait (s' : MultiAPIService) (t t' : Z) :
    later_on s now s' t -> (t <= t')%Z -> later_on s now s' t'
| later_on_dispatch (A : Type) (body : provider -> attempt A) (local : reply A)
    (s' : MultiAPIService) (t : Z) :
    later_on s now s' t ->
    later_on s now (service_of (dispatch body local s' t))
                   (clock_of (dispatch body local s' t)).

End History.

(** ** Facts about the text helpers *)

Module TextFacts.
Import Text.

Lemma append_cons (c : ascii) (p q : string) : String c p ++ q = String c (p ++ q).
Proof. reflexivity. Qed.

Lemma append_nil (q : string) : "" ++ q = q.
Proof. reflexivity. Qed.

Lemma startswith_spec (p s : string) :
  startswith p s = true <-> exists post, s = p ++ post.
Proof.
  revert s. induction p as [|a p IH]; intros s; simpl.
  - split; [intros _; exists s; reflexivity | reflexivity].
  - destruct s as [|c s]; simpl.
    + split; [discriminate | intros [post H]; rewrite append_cons in H; discriminate].
    + destruct (Ascii.eqb_spec a c) as [->|Hne].
      * rewrite IH. split; intros [post H]; exists post;
          rewrite append_cons in *; congruence.
      * split; [discriminate | intros [post H]; rewrite append_cons in H; congruence].
Qed.

Lemma contains_spec (term s : string) :
  contains term s = true <-> exists pre post, s = pre ++ term ++ post.
Proof.
  induction s as [|c s IH]; simpl.
  - rewrite orb_false_r, startswith_spec. split.
    + intros [post H]. exists "", post. exact H.
    + intros [pre [post H]]. destruct pre.
      * rewrite append_nil in H. eauto.
      * rewrite append_cons in H. discriminate.
  - rewrite orb_true_iff, IH, startswith_spec. split.
    + intros [[post H] | [pre [post H]]].
      * exists "", post. exact H.
      * exists (String c pre), post. rewrite append_cons. congruence.
    + intros [pre [post H]]. destruct pre as [|a pre].
      * left. rewrite append_nil in H. eauto.
      * right. exists pre, post. rewrite append_cons in H. congruence.
Qed.

End TextFacts.

(** ** Facts about the provider fallback gateway *)

Module MultiAPIFacts.
Import MultiAPI.

Lemma result_add_call {A : Type} (c : call) (r : run A) :
  result_of (add_call c r) = result_of r.
Proof. reflexivity. Qed.

Lemma service_add_call {A : Type} (c : call) (r : run A) :
  service_of (add_call c r) = service_of r.
Proof. reflexivity. Qed.

Lemma clock_add_call {A : Type} (c : call) (r : run A) :
  clock_of (add_call c r) = clock_of r.
Proof. reflexivity. Qed.

Lemma calls_add_call {A : Type} (c : call) (r : run A) :
  calls_of (add_call c r) = c :: calls_of r.
Proof. reflexivity. Qed.

Create Rewrite HintDb run.
#[local] Hint Rewrite @result_add_call @service_add_call @clock_add_call
  @calls_add_call : run.

Ltac run_simpl := autorewrite with run in *.

Lemma available_frame (s s1 : MultiAPIService) (now : Z) (p : provider) (a : bool) :
  is_provider_available s now p = (a, s1) ->
  api_providers s1 = api_providers s /\
  current_provider_index s1 = current_provider_index s /\
  local_llm_available s1 = local_llm_available s.
Proof.
  unfold is_provider_available.
  destruct (rate_limit_cooldown s !! name p) as [e|];
    [destruct (now <? e)%Z|]; intros H; injection H as <- <-; auto.
Qed.

Lemma on_failure_frame (s : MultiAPIService) (now : Z) (p : provider) (msg : string) :
  api_providers (on_failure s now p msg) = api_providers s /\
  current_provider_index (on_failure s now p msg)
    = (current_provider_index s + 1) mod length (api_providers s) /\
  rate_limit_cooldown (on_failure s now p msg)
    = if is_rate_limit_error msg
      then <[name p := (now + 300)%Z]> (rate_limit_cooldown s)
      else rate_limit_cooldown s.
Proof.
  unfold on_failure. destruct (is_rate_limit_error msg); simpl; auto.
Qed.

Lemma is_rate_limit_error_spec (msg : string) :
  is_rate_limit_error msg = true <->
  exists term, In term rate_limit_terms /\
    exists pre post, Text.lower msg = pre ++ term ++ post.
Proof.
  unfold is_rate_limit_error. rewrite existsb_exists.
  split; intros [term [Hin H]]; exists term; split; auto;
    apply TextFacts.contains_spec; exact H.
Qed.

(** C4. When the attempted provider raises, the message is classified by
    a case-insensitive substring test against the four indicators; a match
    gives the provider a cooldown entry expiring 300 seconds after the
    failure, no match leaves the cooldown table as it was; in both cases
    the loop goes on with the next provider. *)
Theorem failure_classification {A : Type} (body : provider -> attempt A)
    (n : nat) (s s1 : MultiAPIService) (now : Z) (p : provider)
    (r : reply A) (msg : string) :
  api_providers s !! current_provider_index s = Some p ->
  is_provider_available s now p = (true, s1) ->
  body p = Invoke r ->
  outcome r = Raise msg ->
  let failed_at := (now + Z.of_N (elapsed r))%Z in
  (is_rate_limit_error msg = true <->
     exists term, In term ["rate limit"; "quota"; "429"; "too many requests"] /\
       exists pre post, Text.lower msg = pre ++ term ++ post) /\
  exists s2,
    fallback_loop body (S n) s now
      = add_call (mk_call (current_provider_index s) now)
                 (fallback_loop body n s2 failed_at) /\
    api_providers s2 = api_providers s /\
    current_provider_index s2
      = (current_provider_index s + 1) mod length (api_providers s) /\
    rate_limit_cooldown s2
      = if is_rate_limit_error msg
        then <[name p := (failed_at + 5 * 60)%Z]> (rate_limit_cooldown s1)
        else rate_limit_cooldown s1.
Proof.
  intros Hp Hav Hbody Hout failed_at. split.
  - apply is_rate_limit_error_spec.
  - exists (on_failure s1 failed_at p msg).
    destruct (available_frame _ _ _ _ _ Hav) as (Hprov & Hidx & _).
    destruct (on_failure_frame s1 failed_at p msg) as (F1 & F2 & F3).
    repeat split.
    + simpl. rewrite Hp, Hav, Hbody, Hout. reflexivity.
    + congruence.
    + rewrite F2, Hidx, Hprov. reflexivity.
    + exact F3.
Qed.

Lemma available_guard (x : string) (e : Z) (s s1 : MultiAPIService) (now : Z)
    (p : provider) (a : bool) :
  expiry_guard x e s now ->
  is_provider_available s now p = (a, s1) ->
  expiry_guard x e s1 now /\ (a = true -> name p = x -> (e <= now)%Z).
Proof.
  unfold expiry_guard, is_provider_available. intros G.
  destruct (rate_limit_cooldown s !! name p) as [e0|] eqn:L.
  - destruct (Z.ltb_spec now e0) as [Hlt|Hge]; intros H; injection H as <- <-.
    + split; [exact G | discriminate].
    + destruct G as [G|(e' & L' & Hle)]; [split; auto|].
      destruct (decide (name p = x)) as [Heq|Hne].
      * assert (e' = e0) by congruence. subst e'. split; [left; lia | intros; lia].
      * split; [|intros _ Heq; contradiction].
        right. exists e'. simpl. rewrite lookup_delete_ne by exact Hne. auto.
  - intros H; injection H as <- <-. split; [exact G|].
    intros _ Heq. destruct G as [G|(e' & L' & _)]; [exact G | congruence].
Qed.

Lemma advance_guard (x : string) (e : Z) (s : MultiAPIService) (now : Z) :
  expiry_guard x e s now -> expiry_guard x e (advance s) now.
Proof. exact (fun G => G). Qed.

Lemma on_failure_guard (x : string) (e : Z) (s : MultiAPIService) (now now' : Z)
    (p : provider) (msg : string) :
  expiry_guard x e s now -> (name p = x -> (e <= now)%Z) -> (now <= now')%Z ->
  expiry_guard x e (on_failure s now' p msg) now'.
Proof.
  unfold expiry_guard. intros G Hp Hle.
  destruct (on_failure_frame s now' p msg) as (_ & _ & ->).
  destruct G as [G|(e' & L & He)]; [left; lia|].
  destruct (is_rate_limit_error msg); [|right; eauto].
  destruct (decide (name p = x)) as [Heq|Hne].
  - left. specialize (Hp Heq). lia.
  - right. exists e'. rewrite lookup_insert_ne by exact Hne. auto.
Qed.

Lemma loop_providers {A : Type} (body : provider -> attempt A) (n : nat) :
  forall s now,
    api_providers (service_of (fallback_loop body n s now)) = api_providers s.
Proof.
  induction n as [|n IH]; intros s now; simpl; [reflexivity|].
  destruct (api_providers s !! current_provider_index s) as [p|]; [|reflexivity].
  destruct (is_provider_available s now p) as [a s1] eqn:Hav.
  destruct (available_frame _ _ _ _ _ Hav) as (Hprov & _ & _).
  destruct a; [destruct (body p) as [r|]; [destruct (outcome r) as [v|msg]|]|].
  - exact Hprov.
  - run_simpl. rewrite IH. destruct (on_failure_frame s1 (now + Z.of_N (elapsed r)) p msg) as (-> & _).
    exact Hprov.
  - rewrite IH. exact Hprov.
  - rewrite IH. exact Hprov.
Qed.

(** No provider is called before the expiry its cooldown entry had when the
    loop was entered. *)
Lemma loop_respects_expiry {A : Type} (body : provider -> attempt A)
    (x : string) (e : Z) (n : nat) :
  forall s now,
    expiry_guard x e s now ->
    forall c q, In c (calls_of (fallback_loop body n s now)) ->
      callee s c = Some q -> name q = x -> (e <= started c)%Z.
Proof.
  unfold callee.
  induction n as [|n IH]; intros s now G c q Hin Hq Hx; simpl in Hin; [contradiction|].
  destruct (api_providers s !! current_provider_index s) as [p|] eqn:Hp; [|contradiction].
  simpl in Hin.
  destruct (is_provider_available s now p) as [a s1] eqn:Hav.
  destruct (available_frame _ _ _ _ _ Hav) as (Hprov & _ & _).
  destruct (available_guard _ _ _ _ _ _ _ G Hav) as (G1 & Hnow).
  destruct a.
  - destruct (body p) as [r|].
    + assert (Hhead : mk_call (current_provider_index s) now = c -> (e <= started c)%Z).
      { intros <-. simpl in *. apply Hnow; congruence. }
      destruct (outcome r) as [v|msg].
      * destruct Hin as [Hin|[]]. auto.
      * run_simpl. destruct Hin as [Hin|Hin]; [auto|].
        eapply IH; [| exact Hin | | exact Hx].
        -- apply (on_failure_guard x e s1 now); auto. lia.
        -- destruct (on_failure_frame s1 (now + Z.of_N (elapsed r)) p msg) as (-> & _).
           congruence.
    + eapply IH; [| exact Hin | | exact Hx]; [apply advance_guard; exact G1 | simpl; congruence].
  - eapply IH; [| exact Hin | | exact Hx]; [apply advance_guard; exact G1 | simpl; congruence].
Qed.

(** The clock never runs backwards during the loop. *)
Lemma loop_clock {A : Type} (body : provider -> attempt A) (n : nat) :
  forall s now,
    (now <= clock_of (fallback_loop body n s now))%Z /\
    forall c, In c (calls_of (fallback_loop body n s now)) ->
      (now <= started c <= clock_of (fallback_loop body n s now))%Z.
Proof.
  induction n as [|n IH]; intros s now; simpl.
  - split; [unfold clock_of; simpl; lia | intros c []].
  - destruct (api_providers s !! current_provider_index s) as [p|].
    2:{ split; [unfold clock_of; simpl; lia | intros c []]. }
    destruct (is_provider_available s now p) as [a s1].
    destruct a; [destruct (body p) as [r|]; [destruct (outcome r) as [v|msg]|]|];
      try apply IH.
    + unfold clock_of, calls_of; simpl. split; [lia|].
      intros c [<-|[]]. simpl. lia.
    + destruct (IH (on_failure s1 (now + Z.of_N (elapsed r)) p msg)
                   (now + Z.of_N (elapsed r))%Z) as (H1 & H2).
      run_simpl. split; [lia|]. intros c [<-|Hin]; [simpl; lia|].
      specialize (H2 c Hin). lia.
Qed.

Lemma dispatch_respects_expiry {A : Type} (body : provider -> attempt A)
    (local : reply A) (s : MultiAPIService) (now : Z) (p : provider) (e : Z) :
  rate_limit_cooldown s !! name p = Some e ->
  forall c q, In c (calls_of (dispatch body local s now)) ->
    callee s c = Some q -> name q = name p -> (e <= started c)%Z.
Proof.
  intros L c q Hin Hq Hx. unfold dispatch in Hin.
  assert (G : forall t, expiry_guard (name p) e s t).
  { intros t. right. exists e. split; [exact L | lia]. }
  destruct (local_llm_available s); [destruct (outcome local)|].
  - destruct Hin.
  - eapply loop_respects_expiry; eauto.
  - eapply loop_respects_expiry; eauto.
Qed.

Lemma dispatch_clock {A : Type} (body : provider -> attempt A)
    (local : reply A) (s : MultiAPIService) (now : Z) :
  forall c, In c (calls_of (dispatch body local s now)) ->
    (now <= started c <= clock_of (dispatch body local s now))%Z.
Proof.
  intros c. unfold dispatch.
  destruct (local_llm_available s); [destruct (outcome local)|].
  - intros [].
  - intros Hin. apply loop_clock in Hin. lia.
  - intros Hin. apply loop_clock in Hin. lia.
Qed.

Lemma not_available_before_expiry (s : MultiAPIService) (p : provider) (e now : Z) :
  rate_limit_cooldown s !! name p = Some e -> (now < e)%Z ->
  is_provider_available s now p = (false, s).
Proof.
  intros L H. unfold is_provider_available. rewrite L.
  destruct (Z.ltb_spec now e); [reflexivity | lia].
Qed.

Lemma available_after_expiry (s : MultiAPIService) (p : provider) (e now : Z) :
  rate_limit_cooldown s !! name p = Some e -> (e <= now)%Z ->
  is_provider_available s now p
    = (true, with_cooldown s (delete (name p) (rate_limit_cooldown s))).
Proof.
  intros L H. unfold is_provider_available. rewrite L.
  destruct (Z.ltb_spec now e); [lia | reflexivity].
Qed.

(** C3 (as amended). For a provider whose name has a cooldown entry
    expiring at [e]: an availability check made strictly before [e] reports
    it unavailable and changes nothing; a check made at or after [e]
    reports it available and removes the entry; no call made by
    [generate_text] or [generate_embeddings] to a provider of that name is
    started before [e], so a dispatch that is over before [e] never calls
    it. *)
Theorem cooldown_respected {Emb : Type} (b : backend Emb) (s : MultiAPIService)
    (p : provider) (e : Z) :
  rate_limit_cooldown s !! name p = Some e ->
  (forall now, (now < e)%Z -> is_provider_available s now p = (false, s)) /\
  (forall now, (e <= now)%Z ->
     exists s', is_provider_available s now p = (true, s') /\
       rate_limit_cooldown s' = delete (name p) (rate_limit_cooldown s) /\
       rate_limit_cooldown s' !! name p = None) /\
  (forall prompt context now,
     let out := generate_text b prompt context s now in
     (forall c q, In c (calls_of out) -> callee s c = Some q ->
        name q = name p -> (e <= started c)%Z) /\
     ((clock_of out < e)%Z ->
        forall c q, In c (calls_of out) -> callee s c = Some q ->
          name q <> name p)) /\
  (forall texts now,
     let out := generate_embeddings b texts s now in
     (forall c q, In c (calls_of out) -> callee s c = Some q ->
        name q = name p -> (e <= started c)%Z) /\
     ((clock_of out < e)%Z ->
        forall c q, In c (calls_of out) -> callee s c = Some q ->
          name q <> name p)).
Proof.
  intros L. split; [|split; [|split]].
  - intros now H. apply not_available_before_expiry with e; assumption.
  - intros now H. eexists. split; [apply available_after_expiry with e; assumption|].
    split; [reflexivity | apply lookup_delete_eq].
  - intros prompt context now out. subst out. unfold generate_text.
    match goal with |- context [calls_of ?o] =>
      assert (H : forall c q, In c (calls_of o) -> callee s c = Some q ->
                    name q = name p -> (e <= started c)%Z)
    end.
    { intros c q. apply dispatch_respects_expiry. exact L. }
    split; [exact H|]. intros Hend c q Hin Hq Heq.
    specialize (H c q Hin Hq Heq). apply dispatch_clock in Hin. lia.
  - intros texts now out. subst out. unfold generate_embeddings.
    match goal with |- context [calls_of ?o] =>
      assert (H : forall c q, In c (calls_of o) -> callee s c = Some q ->
                    name q = name p -> (e <= started c)%Z)
    end.
    { intros c q. apply dispatch_respects_expiry. exact L. }
    split; [exact H|]. intros Hend c q Hin Hq Heq.
    specialize (H c q Hin Hq Heq). apply dispatch_clock in Hin. lia.
Qed.

Lemma advance_in_range (s : MultiAPIService) :
  current_provider_index s < length (api_providers s) ->
  current_provider_index (advance s) < length (api_providers (advance s)).
Proof. simpl. intros H. apply Nat.mod_upper_bound. lia. Qed.

Lemma step_mod (c n N : nat) : ((c + 1) mod N + n) mod N = (c + S n) mod N.
Proof.
  rewrite Nat.Div0.add_mod_idemp_l. f_equal. lia.
Qed.

(** How the loop ends: with the result of the provider called last, the
    cursor left on that provider; or with the terminal error, the cursor
    advanced once per iteration. *)
Lemma loop_end {A : Type} (body : provider -> attempt A) (n : nat) :
  forall s now,
    current_provider_index s < length (api_providers s) ->
    let out := fallback_loop body n s now in
    match result_of out with
    | Ok a =>
        exists l c q r, calls_of out = (l ++ [c])%list /\
          current_provider_index (service_of out) = who c /\
          callee s c = Some q /\ body q = Invoke r /\ outcome r = Ok a
    | Raise msg =>
        msg = all_failed /\
        current_provider_index (service_of out)
          = (current_provider_index s + n) mod length (api_providers s)
    end.
Proof.
  induction n as [|n IH]; intros s now Hc; simpl.
  - split; [reflexivity|]. rewrite Nat.add_0_r, Nat.mod_small; auto.
  - destruct (lookup_lt_is_Some_2 _ _ Hc) as [p Hp]. rewrite Hp.
    destruct (is_provider_available s now p) as [a s1] eqn:Hav.
    destruct (available_frame _ _ _ _ _ Hav) as (Hprov & Hidx & _).
    assert (Hnext : forall s', api_providers s' = api_providers s ->
              current_provider_index s'
                = (current_provider_index s + 1) mod length (api_providers s) ->
              forall t,
              match result_of (fallback_loop body n s' t) with
              | Ok a0 =>
                  exists l c q r,
                    calls_of (fallback_loop body n s' t) = (l ++ [c])%list /\
                    current_provider_index (service_of (fallback_loop body n s' t))
                      = who c /\
                    callee s c = Some q /\ body q = Invoke r /\ outcome r = Ok a0
              | Raise msg =>
                  msg = all_failed /\
                  current_provider_index (service_of (fallback_loop body n s' t))
                    = (current_provider_index s + S n) mod length (api_providers s)
              end).
    { intros s' E1 E2 t.
      assert (Hc' : current_provider_index s' < length (api_providers s')).
      { rewrite E1, E2. apply Nat.mod_upper_bound. lia. }
      specialize (IH s' t Hc'). simpl in IH.
      destruct (result_of (fallback_loop body n s' t)).
      - unfold callee in *. rewrite E1 in IH. exact IH.
      - rewrite E1, E2, step_mod in IH. exact IH. }
    assert (Hadv : api_providers (advance s1) = api_providers s /\
              current_provider_index (advance s1)
                = (current_provider_index s + 1) mod length (api_providers s)).
    { simpl. rewrite Hprov, Hidx. auto. }
    destruct a; [destruct (body p) as [r|] eqn:Hb; [destruct (outcome r) as [v|msg] eqn:Ho|]|].
    + exists [], (mk_call (current_provider_index s) now), p, r.
      unfold callee. simpl. auto.
    + destruct (on_failure_frame s1 (now + Z.of_N (elapsed r)) p msg) as (F1 & F2 & _).
      rewrite Hprov in F1, F2. rewrite Hidx in F2.
      specialize (Hnext _ F1 F2 (now + Z.of_N (elapsed r))%Z).
      run_simpl.
      destruct (result_of (fallback_loop body n _ _)); [|exact Hnext].
      destruct Hnext as (l & c & q & r' & -> & H). 
      exists (mk_call (current_provider_index s) now :: l), c, q, r'. auto.
    + destruct Hadv as (E1 & E2). exact (Hnext _ E1 E2 now).
    + destruct Hadv as (E1 & E2). exact (Hnext _ E1 E2 now).
Qed.

Lemma dispatch_end {A : Type} (body : provider -> attempt A) (local : reply A)
    (s : MultiAPIService) (now : Z) :
  cursor_in_range s ->
  let out := dispatch body local s now in
  match result_of out with
  | Ok a =>
      (local_llm_available s = true /\ outcome local = Ok a /\ calls_of out = []) \/
      (exists l c q r, calls_of out = (l ++ [c])%list /\
         current_provider_index (service_of out) = who c /\
         callee s c = Some q /\ body q = Invoke r /\ outcome r = Ok a)
  | Raise msg =>
      msg = all_failed /\
      current_provider_index (service_of out) = current_provider_index s
  end.
Proof.
  intros Hr.
  assert (Hloop : forall t,
    match result_of (fallback_loop body (length (api_providers s)) s t) with
    | Ok a =>
        exists l c q r,
          calls_of (fallback_loop body (length (api_providers s)) s t) = (l ++ [c])%list /\
          current_provider_index
            (service_of (fallback_loop body (length (api_providers s)) s t)) = who c /\
          callee s c = Some q /\ body q = Invoke r /\ outcome r = Ok a
    | Raise msg =>
        msg = all_failed /\
        current_provider_index
          (service_of (fallback_loop body (length (api_providers s)) s t))
          = current_provider_index s
    end).
  { intros t. destruct Hr as [Hnil|Hlt].
    - rewrite Hnil. simpl. auto.
    - pose proof (loop_end body (length (api_providers s)) s t Hlt) as H. simpl in H.
      destruct (result_of (fallback_loop body (length (api_providers s)) s t)); [exact H|].
      destruct H as (-> & ->). split; [reflexivity|].
      replace (current_provider_index s + length (api_providers s))
        with (current_provider_index s + 1 * length (api_providers s)) by lia.
      rewrite Nat.Div0.mod_add. apply Nat.mod_small. exact Hlt. }
  unfold dispatch. simpl.
  destruct (local_llm_available s); [destruct (outcome local) as [v|msg] eqn:Ho|].
  - left. auto.
  - specialize (Hloop (now + Z.of_N (elapsed local))%Z).
    destruct (result_of (fallback_loop body _ s _)); [right|]; exact Hloop.
  - specialize (Hloop now).
    destruct (result_of (fallback_loop body _ s _)); [right|]; exact Hloop.
Qed.

Lemma dispatch_exhausted {A : Type} (body : provider -> attempt A) (local : reply A)
    (s : MultiAPIService) (now : Z) :
  cursor_in_range s ->
  let out := dispatch body local s now in
  ((exists a, result_of out = Ok a) \/ result_of out = Raise all_failed) /\
  ((local_llm_available s = false \/ exists msg, outcome local = Raise msg) ->
   (forall c q r, In c (calls_of out) -> callee s c = Some q ->
      body q = Invoke r -> exists msg, outcome r = Raise msg) ->
   result_of out = Raise all_failed).
Proof.
  intros Hr out. pose proof (dispatch_end body local s now Hr) as H.
  simpl in H. fold out in H. destruct (result_of out) as [a|msg].
  - split; [left; eauto|]. intros Hlocal Hfail.
    destruct H as [(Hl & Ho & _)|(l & c & q & r & Hc & _ & Hq & Hb & Ho)].
    + destruct Hlocal as [Hlocal|[msg Hlocal]]; congruence.
    + destruct (Hfail c q r) as [msg Hmsg]; auto; [|congruence].
      rewrite Hc. apply in_or_app. right. left. reflexivity.
  - destruct H as (-> & _). auto.
Qed.

Lemma dispatch_providers {A : Type} (body : provider -> attempt A) (local : reply A)
    (s : MultiAPIService) (now : Z) :
  api_providers (service_of (dispatch body local s now)) = api_providers s.
Proof.
  unfold dispatch.
  destruct (local_llm_available s); [destruct (outcome local)|];
    [reflexivity | apply loop_providers | apply loop_providers].
Qed.

(** The constructor puts the cursor inside the registry and every
    dispatch keeps it there. *)
Lemma init_cursor_in_range (registry : list provider) : cursor_in_range (init registry).
Proof.
  unfold cursor_in_range. simpl. destruct registry; [left; reflexivity | right; simpl; lia].
Qed.

Lemma dispatch_cursor_in_range {A : Type} (body : provider -> attempt A)
    (local : reply A) (s : MultiAPIService) (now : Z) :
  cursor_in_range s -> cursor_in_range (service_of (dispatch body local s now)).
Proof.
  intros Hr. pose proof (dispatch_end body local s now Hr) as H. simpl in H.
  unfold cursor_in_range. rewrite dispatch_providers.
  destruct (result_of (dispatch body local s now)) as [a|msg].
  - destruct H as [(Hl & Ho & _)|(l & c & q & r & _ & -> & Hq & _)].
    + unfold dispatch. rewrite Hl, Ho. exact Hr.
    + right. unfold callee in Hq. eapply lookup_lt_Some. exact Hq.
  - destruct H as (_ & ->). exact Hr.
Qed.

(** C6. With the cursor inside the registry, [generate_text] and
    [generate_embeddings] end in a returned value or in the terminal
    error and in nothing else; when the local model is unavailable or
    fails and every provider call made during the dispatch raises, they
    raise the terminal error. *)
Theorem graceful_exhaustion {Emb : Type} (b : backend Emb) (s : MultiAPIService)
    (now : Z) :
  cursor_in_range s ->
  (forall prompt context,
     let out := generate_text b prompt context s now in
     ((exists a, result_of out = Ok a) \/
      result_of out = Raise "All API providers failed or are rate limited") /\
     ((local_llm_available s = false \/
       exists msg, outcome (local_generate_text b prompt context) = Raise msg) ->
      (forall c q, In c (calls_of out) -> callee s c = Some q ->
         exists msg, outcome (text_reply b prompt context q) = Raise msg) ->
      result_of out = Raise "All API providers failed or are rate limited")) /\
  (forall texts,
     let out := generate_embeddings b texts s now in
     ((exists a, result_of out = Ok a) \/
      result_of out = Raise "All API providers failed or are rate limited") /\
     ((local_llm_available s = false \/
       exists msg, outcome (local_generate_embeddings b texts) = Raise msg) ->
      (forall c q r, In c (calls_of out) -> callee s c = Some q ->
         embeddings_body b texts q = Invoke r -> exists msg, outcome r = Raise msg) ->
      result_of out = Raise "All API providers failed or are rate limited")).
Proof.
  intros Hr. split.
  - intros prompt context out.
    destruct (dispatch_exhausted (text_body b prompt context)
                (local_generate_text b prompt context) s now Hr) as (H1 & H2).
    split; [exact H1|]. intros Hlocal Hfail. apply H2; [exact Hlocal|].
    intros c q r Hin Hq Hb. unfold text_body in Hb. injection Hb as <-.
    eapply Hfail; eauto.
  - intros texts out.
    exact (dispatch_exhausted (embeddings_body b texts)
             (local_generate_embeddings b texts) s now Hr).
Qed.

(** C7 (as amended). With the cursor inside the registry: after a dispatch
    that returns through a registry provider, the cursor is the index of
    the provider called last, the one that succeeded; after a dispatch
    that raises, the cursor is where it was before the call. *)
Theorem cursor_after_dispatch {Emb : Type} (b : backend Emb) (s : MultiAPIService)
    (now : Z) :
  cursor_in_range s ->
  (forall prompt context,
     let out := generate_text b prompt context s now in
     (forall a, result_of out = Ok a -> calls_of out <> [] ->
        exists l c, calls_of out = (l ++ [c])%list /\
          current_provider_index (service_of out) = who c) /\
     (forall msg, result_of out = Raise msg ->
        current_provider_index (service_of out) = current_provider_index s)) /\
  (forall texts,
     let out := generate_embeddings b texts s now in
     (forall a, result_of out = Ok a -> calls_of out <> [] ->
        exists l c, calls_of out = (l ++ [c])%list /\
          current_provider_index (service_of out) = who c) /\
     (forall msg, result_of out = Raise msg ->
        current_provider_index (service_of out) = current_provider_index s)).
Proof.
  intros Hr.
  assert (H : forall (A : Type) (body : provider -> attempt A) (local : reply A),
    let out := dispatch body local s now in
    (forall a, result_of out = Ok a -> calls_of out <> [] ->
       exists l c, calls_of out = (l ++ [c])%list /\
         current_provider_index (service_of out) = who c) /\
    (forall msg, result_of out = Raise msg ->
       current_provider_index (service_of out) = current_provider_index s)).
  { intros A body local out.
    pose proof (dispatch_end body local s now Hr) as H. simpl in H. fold out in H.
    split.
    - intros a Ha Hne. rewrite Ha in H.
      destruct H as [(_ & _ & Hnil)|(l & c & q & r & Hc & Hi & _)]; [contradiction|].
      exists l, c. auto.
    - intros msg Hm. rewrite Hm in H. apply H. }
  split; intros; apply H.
Qed.

Lemma none_cooling_available (s : MultiAPIService) (now : Z) (p : provider) :
  none_cooling s now -> In p (api_providers s) ->
  exists s1, is_provider_available s now p = (true, s1) /\ none_cooling s1 now.
Proof.
  intros Hn Hin. unfold is_provider_available.
  destruct (rate_limit_cooldown s !! name p) as [e|] eqn:L.
  - pose proof (Hn p e Hin L) as He. destruct (Z.ltb_spec now e); [lia|].
    eexists. split; [reflexivity|].
    intros q e' Hq. simpl. intros L'.
    apply lookup_delete_Some in L' as [_ L']. eapply (Hn q e'); eauto.
  - eexists. split; [reflexivity | exact Hn].
Qed.

Lemma none_cooling_later (s : MultiAPIService) (now now' : Z) :
  none_cooling s now -> (now <= now')%Z -> none_cooling (advance s) now'.
Proof.
  intros Hn Hle p e Hin L. simpl in *. specialize (Hn p e Hin L). lia.
Qed.

Lemma rotation_S (c size n : nat) :
  rotation c size (S n) = (c + 0) mod size :: rotation ((c + 1) mod size) size n.
Proof.
  unfold rotation. simpl. f_equal. rewrite <- seq_shift, map_map.
  apply map_ext. intros k. symmetry. apply step_mod.
Qed.

(** [n] failures that are not rate limits followed by a success: the loop
    returns that success after calling the [n + 1] providers in rotation
    order. *)
Lemma loop_until_success {A : Type} (body : provider -> attempt A) (v : A) (n : nat) :
  forall s now,
    current_provider_index s < length (api_providers s) ->
    none_cooling s now ->
    (forall k p, k < n ->
       api_providers s !! ((current_provider_index s + k) mod length (api_providers s))
         = Some p ->
       exists r msg, body p = Invoke r /\ outcome r = Raise msg /\
         is_rate_limit_error msg = false) ->
    (forall p,
       api_providers s !! ((current_provider_index s + n) mod length (api_providers s))
         = Some p ->
       exists r, body p = Invoke r /\ outcome r = Ok v) ->
    result_of (fallback_loop body (S n) s now) = Ok v /\
    map who (calls_of (fallback_loop body (S n) s now))
      = rotation (current_provider_index s) (length (api_providers s)) (S n).
Proof.
  induction n as [|n IH]; intros s now Hc Hn Hfail Hlast.
  - assert (H0 : (current_provider_index s + 0) mod length (api_providers s)
                 = current_provider_index s).
    { rewrite Nat.add_0_r. apply Nat.mod_small. exact Hc. }
    destruct (lookup_lt_is_Some_2 _ _ Hc) as [p Hp].
    destruct (Hlast p) as (r & Hb & Ho); [rewrite H0; exact Hp|].
    destruct (none_cooling_available s now p Hn) as (s1 & Hav & _).
    { apply list_elem_of_In. eapply list_elem_of_lookup_2. exact Hp. }
    simpl. rewrite Hp, Hav, Hb, Ho. unfold rotation. simpl. rewrite H0. auto.
  - assert (H0 : (current_provider_index s + 0) mod length (api_providers s)
                 = current_provider_index s).
    { rewrite Nat.add_0_r. apply Nat.mod_small. exact Hc. }
    destruct (lookup_lt_is_Some_2 _ _ Hc) as [p Hp].
    destruct (Hfail 0 p) as (r & msg & Hb & Ho & Hrl); [lia | rewrite H0; exact Hp|].
    destruct (none_cooling_available s now p Hn) as (s1 & Hav & Hn1).
    { apply list_elem_of_In. eapply list_elem_of_lookup_2. exact Hp. }
    destruct (available_frame _ _ _ _ _ Hav) as (Hprov & Hidx & _).
    remember (S n) as m eqn:Hm.
    simpl. rewrite Hp, Hav, Hb, Ho. run_simpl.
    unfold on_failure. rewrite Hrl.
    assert (E1 : api_providers (advance s1) = api_providers s) by (simpl; exact Hprov).
    assert (E2 : current_provider_index (advance s1)
                 = (current_provider_index s + 1) mod length (api_providers s)).
    { simpl. rewrite Hprov, Hidx. reflexivity. }
    subst m.
    destruct (IH (advance s1) (now + Z.of_N (elapsed r))%Z) as (R1 & R2).
    + rewrite E1, E2. apply Nat.mod_upper_bound. lia.
    + apply none_cooling_later with now; [exact Hn1 | lia].
    + intros k q Hk. rewrite E1, E2, step_mod. intros Hq.
      apply (Hfail (S k) q); [lia | exact Hq].
    + intros q. rewrite E1, E2, step_mod. apply Hlast.
    + split; [exact R1|]. rewrite map_cons, R2, E1, E2.
      rewrite (rotation_S (current_provider_index s)). rewrite H0. reflexivity.
Qed.

Lemma map_seq_offset (f : nat -> nat) (g m : nat) :
  forall a, (forall k, a <= k < a + m -> f k = g + (k - a)) ->
    map f (seq a m) = seq g m.
Proof.
  revert g. induction m as [|m IH]; intros g a H; simpl; [reflexivity|].
  f_equal.
  - rewrite H by lia. lia.
  - apply IH. intros k Hk. rewrite H by lia. lia.
Qed.

Lemma rotation_full (c size : nat) :
  c < size -> rotation c size size = (seq c (size - c) ++ seq 0 c)%list.
Proof.
  intros Hc. unfold rotation.
  assert (E : seq 0 size = (seq 0 (size - c) ++ seq (0 + (size - c)) c)%list).
  { rewrite <- seq_app. f_equal. lia. }
  rewrite E, map_app. f_equal.
  - apply map_seq_offset. intros k Hk. rewrite Nat.mod_small by lia. lia.
  - apply map_seq_offset. intros k Hk. simpl in Hk.
    replace (c + k) with ((c + k - size) + 1 * size) by lia.
    rewrite Nat.Div0.mod_add, Nat.mod_small by lia. lia.
Qed.

Lemma rotation_perm (c size : nat) :
  c < size -> Permutation (rotation c size size) (seq 0 size).
Proof.
  intros Hc. rewrite rotation_full by exact Hc.
  replace (seq 0 size) with (seq 0 c ++ seq c (size - c))%list.
  - apply Permutation_app_comm.
  - rewrite <- seq_app. f_equal. lia.
Qed.

Lemma dispatch_until_success {A : Type} (body : provider -> attempt A)
    (local : reply A) (s : MultiAPIService) (now : Z) (v : A) :
  let size := length (api_providers s) in
  let c := current_provider_index s in
  local_llm_available s = false ->
  c < size ->
  none_cooling s now ->
  (forall k p, k < size - 1 -> api_providers s !! ((c + k) mod size) = Some p ->
     exists r msg, body p = Invoke r /\ outcome r = Raise msg /\
       is_rate_limit_error msg = false) ->
  (forall p, api_providers s !! ((c + (size - 1)) mod size) = Some p ->
     exists r, body p = Invoke r /\ outcome r = Ok v) ->
  let out := dispatch body local s now in
  result_of out = Ok v /\
  map who (calls_of out) = map (fun k => (c + k) mod size) (seq 0 size) /\
  Permutation (map who (calls_of out)) (seq 0 size) /\
  length (calls_of out) = size.
Proof.
  intros size c Hlocal Hc Hn Hfail Hlast out.
  assert (Hsize : size = S (size - 1)) by lia.
  destruct (loop_until_success body v (size - 1) s now Hc Hn Hfail Hlast) as (R1 & R2).
  rewrite <- Hsize in R1, R2. fold size in R2.
  assert (Hout : out = fallback_loop body size s now).
  { unfold out, dispatch. rewrite Hlocal. reflexivity. }
  rewrite Hout. split; [exact R1|]. split; [exact R2|]. split.
  - rewrite R2. apply rotation_perm. exact Hc.
  - rewrite <- (length_map who), R2. unfold rotation.
    rewrite length_map, length_seq. reflexivity.
Qed.

(** C5. With the local model unavailable, no provider in cooldown, and a
    registry of N providers of which the first N-1 in rotation order raise
    errors that are not rate limits and the N-th returns [v]: the dispatch
    ([generate_text], and likewise [generate_embeddings]) returns [v], and
    the calls it made are the N providers in rotation order from the
    cursor, each index of the registry exactly once. *)
Theorem fallback_completeness {Emb : Type} (b : backend Emb) (s : MultiAPIService)
    (now : Z) :
  let size := length (api_providers s) in
  let c := current_provider_index s in
  local_llm_available s = false ->
  c < size ->
  none_cooling s now ->
  (forall (prompt context v : string),
     (forall k p, k < size - 1 -> api_providers s !! ((c + k) mod size) = Some p ->
        exists msg, outcome (text_reply b prompt context p) = Raise msg /\
          is_rate_limit_error msg = false) ->
     (forall p, api_providers s !! ((c + (size - 1)) mod size) = Some p ->
        outcome (text_reply b prompt context p) = Ok v) ->
     let out := generate_text b prompt context s now in
     result_of out = Ok v /\
     map who (calls_of out) = map (fun k => (c + k) mod size) (seq 0 size) /\
     Permutation (map who (calls_of out)) (seq 0 size) /\
     length (calls_of out) = size) /\
  (forall (texts : list string) (v : Emb),
     (forall k p, k < size - 1 -> api_providers s !! ((c + k) mod size) = Some p ->
        exists r msg, embeddings_body b texts p = Invoke r /\
          outcome r = Raise msg /\ is_rate_limit_error msg = false) ->
     (forall p, api_providers s !! ((c + (size - 1)) mod size) = Some p ->
        exists r, embeddings_body b texts p = Invoke r /\ outcome r = Ok v) ->
     let out := generate_embeddings b texts s now in
     result_of out = Ok v /\
     map who (calls_of out) = map (fun k => (c + k) mod size) (seq 0 size) /\
     Permutation (map who (calls_of out)) (seq 0 size) /\
     length (calls_of out) = size).
Proof.
  intros size c Hlocal Hc Hn. split.
  - intros prompt context v Hfail Hlast.
    apply dispatch_until_success; auto.
    + intros k p Hk Hp. destruct (Hfail k p Hk Hp) as (msg & Ho & Hrl).
      exists (text_reply b prompt context p), msg. auto.
    + intros p Hp. exists (text_reply b prompt context p). auto.
  - intros texts v Hfail Hlast.
    apply dispatch_until_success; auto.
Qed.

(** *** The gateway on the sample registries *)

Import Examples.

Lemma cooldown_respected_witness :
  rate_limit_cooldown openai_cooling !! name openai_1 = Some 100%Z /\
  forall now, (now < 100)%Z ->
    is_provider_available openai_cooling now openai_1 = (false, openai_cooling).
Proof.
  split; [reflexivity|].
  exact (proj1 (cooldown_respected all_up openai_cooling openai_1 100 eq_refl)).
Defined.

(** A dispatch that starts at second 99, one second before [openai]'s
    cooldown expires, and spends two seconds on the first provider,
    reaches [openai] at second 101 and calls it. *)
Lemma cooldown_window_fails : ~ Claimed.cooldown_window.
Proof.
  intros H.
  apply (H gemini_out_of_quota "q" "c" openai_cooling openai_1 100%Z 99%Z
           eq_refl eq_refl (mk_call 1 101)).
  - vm_compute. auto.
  - reflexivity.
Qed.

Lemma failure_classification_witness :
  exists s2,
    fallback_loop (text_body gemini_out_of_quota "q" "c") 2 two_providers 0
      = add_call (mk_call 0 0)
          (fallback_loop (text_body gemini_out_of_quota "q" "c") 1 s2 2) /\
    current_provider_index s2 = 1 /\
    rate_limit_cooldown s2 = {[ "gemini_1" := 302%Z ]}.
Proof.
  destruct (failure_classification (text_body gemini_out_of_quota "q" "c") 1
              two_providers two_providers 0 gemini_1
              (mk_reply (Raise "Error 429: Quota exceeded for this key") 2)
              "Error 429: Quota exceeded for this key"
              eq_refl eq_refl eq_refl eq_refl)
    as (_ & s2 & H1 & _ & H3 & H4).
  exists s2. split; [exact H1|]. split; [exact H3|]. rewrite H4. reflexivity.
Defined.

Lemma fallback_completeness_witness :
  result_of (generate_text only_gemini "q" "c" three_providers 0) = Ok "30 days" /\
  map who (calls_of (generate_text only_gemini "q" "c" three_providers 0)) = [1; 2; 0].
Proof.
  pose proof (fallback_completeness only_gemini three_providers 0) as H.
  cbv zeta in H. destruct H as (H & _).
  - reflexivity.
  - simpl. lia.
  - intros p e _ L. simpl in L. rewrite lookup_empty in L. discriminate.
  - destruct (H "q" "c" "30 days") as (H1 & H2 & _).
    + intros k p Hk Hp. destruct k as [|[|k]]; [| |simpl in Hk; lia];
        vm_compute in Hp; injection Hp as <-; eexists; split; reflexivity.
    + intros p Hp. vm_compute in Hp. injection Hp as <-. reflexivity.
    + split; [exact H1 | exact H2].
Defined.

Lemma graceful_exhaustion_witness :
  result_of (generate_text all_down "q" "c" three_providers 0)
  = Raise "All API providers failed or are rate limited".
Proof.
  destruct (graceful_exhaustion all_down three_providers 0) as [H _].
  - right. simpl. lia.
  - apply (H "q" "c"); [left; reflexivity|].
    intros c q _ _. unfold text_reply. destruct (type q); eexists; reflexivity.
Defined.

Lemma cursor_after_dispatch_witness :
  current_provider_index (service_of (generate_text all_down "q" "c" three_providers 0))
  = current_provider_index three_providers.
Proof.
  destruct (cursor_after_dispatch all_down three_providers 0) as [H _].
  - right. simpl. lia.
  - destruct (H "q" "c") as [_ H2]. apply (H2 all_failed). reflexivity.
Defined.

(** A dispatch whose first provider answers leaves the cursor on that
    provider, not on the one after it. *)
Lemma cursor_after_last_attempt_fails : ~ Claimed.cursor_after_last_attempt.
Proof.
  intros H.
  specialize (H all_up "q" "c" two_providers 0%Z (or_intror (Nat.lt_0_succ 1))
                [] (mk_call 0 0) eq_refl).
  vm_compute in H. discriminate.
Qed.

Example rate_limit_messages :
  is_rate_limit_error "Error 429: Quota exceeded for this key" = true /\
  is_rate_limit_error "Too Many Requests" = true /\
  is_rate_limit_error "RATE LIMIT reached" = true /\
  is_rate_limit_error "Read timed out" = false /\
  is_rate_limit_error "Hugging Face text generation not implemented yet" = false.
Proof. repeat split; reflexivity. Qed.

(** Exhaustion on the three providers: every one is called once, the
    cursor is back on the second. *)
Example exhaustion_run :
  generate_text all_down "q" "c" three_providers 0
  = (Raise all_failed, three_providers, 3%Z,
     [mk_call 1 0; mk_call 2 1; mk_call 0 2]).
Proof. vm_compute. reflexivity. Qed.

(** The embedding loop passes over the perplexity provider without a
    call. *)
Example embeddings_skip_perplexity :
  map who (calls_of (generate_embeddings all_down ["q"] three_providers 0)) = [1; 0].
Proof. vm_compute. reflexivity. Qed.

End MultiAPIFacts.

(** ** Facts about the vector store *)

Module VectorStoreFacts.
Import VectorStore.

Section Cache.

Context {Vec : Type}.
Variable encode : list string -> result (list Vec).
Variable disk_writable : bool.

Lemma hash_eqb_refl (h : option string) : hash_eqb h h = true.
Proof. destruct h as [x|]; simpl; [apply String.eqb_refl | reflexivity]. Qed.

(** C1. When the store holds chunks and its recorded hash is the
    (non-empty) hash passed in, [add_documents] returns without handing
    anything to the embedding service and leaves the store (chunks, index,
    recorded hash, saved files) exactly as it was. *)
Theorem add_documents_cached (s : store Vec) (new_chunks : list (DocumentChunk Vec))
    (h : string) :
  h <> "" ->
  _document_hash s = Some h ->
  chunks s <> [] ->
  add_documents encode disk_writable s new_chunks (Some h) = (Ok tt, s, []).
Proof.
  intros Hh Hs Hc. unfold add_documents.
  destruct new_chunks as [|c cs]; [reflexivity|].
  rewrite Hs, hash_eqb_refl.
  destruct h as [|a h]; [contradiction|].
  destruct (chunks s) as [|c0 cs0]; [contradiction|]. reflexivity.
Qed.

(** A first load that succeeds records the hash and the chunks, so a
    second load of the same document finds the cache: the embedding
    service sees one batch across both calls. *)
Lemma add_documents_twice (s : store Vec) (cs cs' : list (DocumentChunk Vec)) (h : string)
    (s1 : store Vec) (batches : list (list string)) :
  h <> "" -> cs <> [] ->
  add_documents encode disk_writable s cs (Some h) = (Ok tt, s1, batches) ->
  length batches <= 1 /\
  add_documents encode disk_writable s1 cs' (Some h) = (Ok tt, s1, []).
Proof.
  intros Hh Hcs H. unfold add_documents in H.
  destruct cs as [|c cs]; [contradiction|].
  destruct (truthy (Some h) && hash_eqb (_document_hash s) (Some h)
            && (0 <? length (chunks s))%nat) eqn:Hhit.
  - injection H as <- <-. split; [simpl; lia|].
    apply andb_prop in Hhit as [Hhit Hlen]. apply andb_prop in Hhit as [_ Heq].
    apply add_documents_cached; [exact Hh | |].
    + destruct (_document_hash s) as [x|]; simpl in Heq; [|discriminate].
      apply String.eqb_eq in Heq. congruence.
    + destruct (chunks s); [discriminate | discriminate].
  - destruct (encode (map content (c :: cs))) as [embeddings|msg]; [|discriminate].
    destruct (length embeddings <? length (c :: cs))%nat eqn:Hrows; [discriminate|].
    injection H as <- <-. split; [simpl; lia|].
    apply Nat.ltb_ge in Hrows.
    apply add_documents_cached; [exact Hh | |].
    + unfold _save_index. destruct disk_writable; reflexivity.
    + assert (Hne : set_embeddings (c :: cs) embeddings <> []).
      { destruct embeddings; [simpl in Hrows; lia | discriminate]. }
      unfold _save_index. destruct disk_writable; exact Hne.
Qed.

End Cache.

Section Ranking.

Context {Score : Type}.
Variable score_geb : Score -> Score -> bool.
Hypothesis geb_total : forall a b, score_geb a b = true \/ score_geb b a = true.
Hypothesis geb_trans : forall a b c,
  score_geb a b = true -> score_geb b c = true -> score_geb a c = true.

#[local] Abbreviation before := (ranked_before score_geb).
#[local] Abbreviation lower_index := (fun a b : hit Score => fst a < fst b).

Lemma insert_hit_perm (h : hit Score) (l : list (hit Score)) :
  Permutation (insert_hit score_geb h l) (h :: l).
Proof.
  induction l as [|h' l IH]; simpl; [reflexivity|].
  destruct (score_geb (snd h) (snd h')); [reflexivity|].
  rewrite IH. apply perm_swap.
Qed.

Lemma rank_hits_perm (l : list (hit Score)) :
  Permutation (rank_hits score_geb l) l.
Proof.
  induction l as [|h l IH]; simpl; [reflexivity|].
  rewrite insert_hit_perm. apply perm_skip. exact IH.
Qed.

Lemma insert_hit_sorted (h : hit Score) (l : list (hit Score)) :
  StronglySorted before l ->
  Forall (lower_index h) l ->
  StronglySorted before (insert_hit score_geb h l).
Proof.
  induction 1 as [|h' l Hs IH Hall]; intros Hlow; simpl.
  - constructor; constructor.
  - inversion Hlow as [|? ? Hh' Hl]; subst.
    destruct (score_geb (snd h) (snd h')) eqn:Hge.
    + constructor; [constructor; assumption|].
      constructor; [split; auto|].
      rewrite List.Forall_forall in *. intros z Hz. split.
      * apply geb_trans with (snd h'); [exact Hge | apply (Hall z Hz)].
      * intros _. apply (Hl z Hz).
    + constructor; [apply IH; exact Hl|].
      rewrite List.Forall_forall in *. intros z Hz.
      apply (Permutation_in _ (insert_hit_perm h l)) in Hz.
      destruct Hz as [<-|Hz]; [|apply (Hall z Hz)].
      split; [|congruence].
      destruct (geb_total (snd h') (snd h)); [assumption | congruence].
Qed.

Lemma rank_hits_sorted (l : list (hit Score)) :
  StronglySorted lower_index l -> StronglySorted before (rank_hits score_geb l).
Proof.
  induction 1 as [|h l Hs IH Hall]; simpl; [constructor|].
  apply insert_hit_sorted; [exact IH|].
  rewrite List.Forall_forall in *. intros z Hz. apply Hall.
  apply (Permutation_in _ (rank_hits_perm l)). exact Hz.
Qed.

Lemma combine_seq_sorted (scores : list Score) :
  forall a n, StronglySorted lower_index (combine (seq a n) scores).
Proof.
  induction scores as [|x scores IH]; intros a n.
  - rewrite combine_nil. constructor.
  - destruct n as [|n]; simpl; constructor; [apply IH|].
    rewrite List.Forall_forall. intros [i y] Hin. apply in_combine_l in Hin.
    apply in_seq in Hin. simpl. lia.
Qed.

Lemma sorted_app_before (l1 l2 : list (hit Score)) :
  StronglySorted before (l1 ++ l2) ->
  forall a, In a l1 -> forall b, In b l2 -> before a b.
Proof.
  induction l1 as [|x l1 IH]; intros Hs a Ha b Hb; [destruct Ha|].
  simpl in Hs. inversion Hs as [|? ? Hs' Hall]; subst.
  destruct Ha as [<-|Ha].
  - rewrite List.Forall_forall in Hall. apply Hall. apply in_or_app. auto.
  - apply IH; assumption.
Qed.

Context {Vec : Type}.
Variable inner : Vec -> Vec -> Score.

Lemma all_hits_index (idx : IndexFlatIP Vec) (q : Vec) (h : hit Score) :
  In h (all_hits inner idx q) -> fst h < ntotal idx.
Proof.
  destruct h as [i x]. intros Hin. apply in_combine_l in Hin.
  apply in_seq in Hin. unfold ntotal. simpl. lia.
Qed.

Lemma all_hits_length (idx : IndexFlatIP Vec) (q : Vec) :
  length (all_hits inner idx q) = ntotal idx.
Proof.
  unfold all_hits, ntotal, hit. rewrite length_combine, length_seq, length_map. lia.
Qed.

Lemma combine_seq_lookup (q : Vec) (x : Score) (l : list Vec) :
  forall a i,
    In (i, x) (combine (seq a (length l)) (map (inner q) l)) <->
    exists v, l !! (i - a) = Some v /\ a <= i /\ x = inner q v.
Proof.
  induction l as [|v l IH]; intros a i; simpl.
  - split; [intros [] | intros (v & Hv & _); discriminate].
  - rewrite IH. split.
    + intros [H|(w & Hw & Hle & Hx)].
      * injection H as <- <-. exists v. rewrite Nat.sub_diag. auto.
      * exists w. replace (i - a) with (S (i - S a)) by lia. simpl. auto with lia.
    + intros (w & Hw & Hle & Hx). destruct (i - a) as [|k] eqn:Hk.
      * left. simpl in Hw. injection Hw as ->. f_equal; [lia | congruence].
      * right. exists w. simpl in Hw. replace (i - S a) with k by lia.
        auto with lia.
Qed.

(** The stored row and score behind every entry of [all_hits]. *)
Lemma all_hits_lookup (idx : IndexFlatIP Vec) (q : Vec) (i : nat) (x : Score) :
  In (i, x) (all_hits inner idx q) <->
  exists v, idx !! i = Some v /\ x = inner q v.
Proof.
  unfold all_hits. rewrite combine_seq_lookup, Nat.sub_0_r.
  split; intros (v & H); exists v; intuition lia.
Qed.

Lemma firstn_In {X : Type} (l : list X) :
  forall k x, In x (firstn k l) -> In x l.
Proof.
  induction l as [|y l IH]; intros [|k] x H; simpl in *; try contradiction.
  destruct H as [H|H]; [auto | right; eapply IH; exact H].
Qed.

Lemma results_from_valid (cs : list (DocumentChunk Vec)) (hits : list (hit Score)) :
  forall i,
    Forall (fun h => fst h < length cs) hits ->
    length (results_from cs i hits) = length hits /\
    Forall2 (fun r h => cs !! fst h = Some (chunk r) /\ score r = snd h)
            (results_from cs i hits) hits /\
    map rank (results_from cs i hits) = seq (i + 1) (length hits).
Proof.
  induction hits as [|[idx sc] hits IH]; intros i Hall; simpl.
  - split; [reflexivity | split; [constructor | reflexivity]].
  - inversion Hall as [|? ? Hlt Hrest]; subst. simpl in Hlt.
    destruct (lookup_lt_is_Some_2 _ _ Hlt) as [c Hc]. rewrite Hc.
    destruct (IH (S i) Hrest) as (H1 & H2 & H3). simpl.
    split; [congruence|]. split; [constructor; auto|].
    rewrite H3. reflexivity.
Qed.

Variable encode_query : string -> result Vec.

(** C2. On a store that holds chunks, one indexed vector per chunk, and a
    query that embeds to [qv], [search] returns min(top_k, size) results;
    the i-th result carries the chunk and the inner product of the i-th
    best stored entry and the rank i; the entries returned are followed,
    in the ranking of all stored entries by descending score with ties in
    ascending insertion index, only by the entries left out. *)
Theorem search_top_k (s : store Vec) (query : string) (qv : Vec) (top_k : nat) :
  chunks s <> [] ->
  ntotal (index s) = length (chunks s) ->
  encode_query query = Ok qv ->
  exists results hits rest,
    search inner score_geb encode_query s query top_k = Ok results /\
    length results = Nat.min top_k (length (chunks s)) /\
    Forall2 (fun r h => chunks s !! fst h = Some (chunk r) /\ score r = snd h)
            results hits /\
    map rank results = seq 1 (length results) /\
    Permutation (hits ++ rest) (all_hits inner (index s) qv) /\
    StronglySorted before (hits ++ rest) /\
    (forall h h', In h hits -> In h' rest -> before h h').
Proof.
  intros Hne Hsize Hq.
  set (k := Nat.min top_k (length (chunks s))).
  set (ranked := rank_hits score_geb (all_hits inner (index s) qv)).
  assert (Hperm : Permutation ranked (all_hits inner (index s) qv))
    by apply rank_hits_perm.
  assert (Hsorted : StronglySorted before ranked).
  { apply rank_hits_sorted. apply combine_seq_sorted. }
  assert (Hvalid : Forall (fun h => fst h < length (chunks s)) (firstn k ranked)).
  { rewrite List.Forall_forall. intros h Hin. rewrite <- Hsize.
    apply all_hits_index with qv. apply (Permutation_in _ Hperm).
    apply (firstn_In _ k). exact Hin. }
  destruct (results_from_valid (chunks s) (firstn k ranked) 0 Hvalid) as (H1 & H2 & H3).
  assert (Hlen : length (firstn k ranked) = k).
  { pose proof (Permutation_length Hperm) as Hl.
    rewrite all_hits_length, Hsize in Hl.
    rewrite length_firstn, Hl. unfold k. lia. }
  exists (results_from (chunks s) 0 (firstn k ranked)), (firstn k ranked), (skipn k ranked).
  rewrite firstn_skipn.
  split; [|split; [|split; [|split; [|split; [|split]]]]].
  - unfold search. destruct (chunks s) as [|c cs] eqn:Hcs; [contradiction|].
    rewrite Hq. reflexivity.
  - congruence.
  - exact H2.
  - rewrite H3, H1. reflexivity.
  - exact Hperm.
  - exact Hsorted.
  - intros h h' Hh Hh'. apply (sorted_app_before (firstn k ranked) (skipn k ranked));
      [rewrite firstn_skipn; exact Hsorted | exact Hh | exact Hh'].
Qed.

End Ranking.

(** *** The store on the sample document *)

Import Examples.

Lemma add_documents_cached_witness :
  add_documents encode true loaded [chunk_1]
    (Some "9e107d9d372bb6826bd81d3542a419d6")
  = (Ok tt, loaded, []).
Proof.
  apply add_documents_cached; [discriminate | reflexivity |].
  intros H. vm_compute in H. discriminate.
Defined.

(** Without a hash, and with an empty hash, nothing is cached: the second
    load embeds again. *)
Example add_documents_without_hash :
  snd (add_documents encode true loaded [chunk_1] None)
    = [["Maternity cover starts after 24 months."]] /\
  snd (add_documents encode true
         (snd (fst (add_documents encode true fresh [chunk_0] (Some ""))))
         [chunk_0] (Some ""))
    = [["The grace period is 30 days."]].
Proof. split; vm_compute; reflexivity. Qed.

Lemma geb_total (a b : Z) : (a >=? b)%Z = true \/ (b >=? a)%Z = true.
Proof. rewrite !Z.geb_le. lia. Qed.

Lemma geb_trans (a b c : Z) :
  (a >=? b)%Z = true -> (b >=? c)%Z = true -> (a >=? c)%Z = true.
Proof. rewrite !Z.geb_le. lia. Qed.

Lemma search_top_k_witness :
  exists results,
    search dot Z.geb encode_query loaded "what is the grace period" 2 = Ok results /\
    length results = 2.
Proof.
  destruct (search_top_k Z.geb geb_total geb_trans dot encode_query loaded
              "what is the grace period" [1; 0]%Z 2)
    as (results & hits & rest & H1 & H2 & _).
  - intros H. vm_compute in H. discriminate.
  - reflexivity.
  - reflexivity.
  - exists results. split; [exact H1 | exact H2].
Defined.

(** The two chunks about the grace period tie on the score; the one
    inserted first is ranked first. *)
Example search_grace_period :
  option_map (map (fun r => (id (chunk r), score r, rank r)))
    (match search dot Z.geb encode_query loaded "what is the grace period" 2 with
     | Ok results => Some results
     | Raise _ => None
     end)
  = Some [("chunk_0", 1%Z, 1); ("chunk_2", 1%Z, 2)].
Proof. vm_compute. reflexivity. Qed.

Example search_clamps_top_k :
  match search dot Z.geb encode_query loaded "maternity" 10 with
  | Ok results => map (fun r => (id (chunk r), score r)) results
  | Raise _ => []
  end
  = [("chunk_1", 1%Z); ("chunk_0", 0%Z); ("chunk_2", 0%Z)].
Proof. vm_compute. reflexivity. Qed.

End VectorStoreFacts.

(** ** Facts about the query processor *)

Module QueryProcessorFacts.
Import Text QueryProcessor TextFacts.

Lemma single_spaced_eq (a c : ascii) (s : string) :
  single_spaced (String a (String c s))
  = negb (Ascii.eqb a space && Ascii.eqb c space) && single_spaced (String c s).
Proof. reflexivity. Qed.

Lemma has_char_cons (c a : ascii) (s : string) :
  has_char c (String a s) = Ascii.eqb a c || has_char c s.
Proof. reflexivity. Qed.

Lemma space_is_space : is_space space = true.
Proof. reflexivity. Qed.

Lemma not_space_neq (c : ascii) : is_space c = false -> Ascii.eqb c space = false.
Proof.
  intros H. destruct (Ascii.eqb_spec c space) as [->|]; [|reflexivity].
  rewrite space_is_space in H. discriminate.
Qed.

Lemma single_spaced_cons (a : ascii) (s : string) :
  single_spaced s = true -> first_char s <> Some space \/ Ascii.eqb a space = false ->
  single_spaced (String a s) = true.
Proof.
  intros Hs Hd. destruct s as [|c s]; [reflexivity|].
  rewrite single_spaced_eq, Hs, andb_true_r. apply negb_true_iff.
  destruct Hd as [Hd| ->]; [|reflexivity].
  destruct (Ascii.eqb_spec c space) as [->|]; [|apply andb_false_r].
  exfalso. apply Hd. reflexivity.
Qed.

Lemma single_spaced_tail (a : ascii) (s : string) :
  single_spaced (String a s) = true -> single_spaced s = true.
Proof.
  destruct s as [|c s]; [reflexivity|]. rewrite single_spaced_eq.
  intros H. apply andb_prop in H as [_ H]. exact H.
Qed.

(** Collapsing white space leaves single spaces as the only white space. *)
Lemma collapse_single_spaced (s : string) :
  forall in_run,
    single_spaced (sub_runs is_space space in_run s) = true /\
    (in_run = true -> first_char (sub_runs is_space space in_run s) <> Some space).
Proof.
  induction s as [|c s IH]; intros in_run; simpl.
  - split; [reflexivity | discriminate].
  - destruct (is_space c) eqn:Hc.
    + destruct in_run.
      * apply IH.
      * split; [|discriminate].
        apply single_spaced_cons; [apply IH | left; apply IH; reflexivity].
    + split.
      * apply single_spaced_cons; [apply IH | right; apply not_space_neq; exact Hc].
      * intros _ H. injection H as ->. rewrite space_is_space in Hc. discriminate.
Qed.

Lemma collapse_chars (c : ascii) (s : string) :
  forall in_run,
    has_char c (sub_runs is_space space in_run s) = true ->
    c = space \/ is_space c = false.
Proof.
  induction s as [|a s IH]; intros in_run; cbn [sub_runs]; [discriminate|].
  destruct (is_space a) eqn:Ha.
  - destruct in_run; [apply IH|]. rewrite has_char_cons.
    destruct (Ascii.eqb_spec space c) as [<-|_]; [auto | apply IH].
  - rewrite has_char_cons. destruct (Ascii.eqb_spec a c) as [<-|_]; [auto | apply IH].
Qed.

Lemma has_char_append (c : ascii) (s t : string) :
  has_char c (s ++ t) = has_char c s || has_char c t.
Proof.
  induction s as [|a s IH]; [reflexivity|].
  rewrite append_cons. simpl. rewrite IH. apply orb_assoc.
Qed.

Lemma first_char_append (s t : string) :
  first_char (s ++ t) = match s with EmptyString => first_char t | _ => first_char s end.
Proof. destruct s; reflexivity. Qed.

Lemma single_spaced_dot (s : string) :
  single_spaced s = true -> single_spaced (s ++ ".") = true.
Proof.
  induction s as [|a s IH]; intros H; [reflexivity|].
  rewrite append_cons. apply single_spaced_cons.
  - apply IH. eapply single_spaced_tail. exact H.
  - destruct s as [|c s]; [left; discriminate|].
    rewrite append_cons. simpl first_char.
    rewrite single_spaced_eq in H. apply andb_prop in H as [H _].
    apply negb_true_iff, andb_false_iff in H.
    destruct H as [H|H]; [right; exact H | left].
    intros E. injection E as ->. discriminate.
Qed.

Lemma last_char_dot (s : string) : last_char (s ++ ".") = Some "."%char.
Proof.
  induction s as [|a s IH]; [reflexivity|].
  rewrite append_cons. cbn [last_char]. rewrite IH.
  destruct s; reflexivity.
Qed.

Lemma lstrip_single_spaced (s : string) :
  single_spaced s = true -> single_spaced (lstrip s) = true.
Proof.
  induction s as [|a s IH]; intros H; [reflexivity|]. simpl.
  destruct (is_space a); [|exact H]. apply IH. eapply single_spaced_tail. exact H.
Qed.

Lemma lstrip_has_char (c : ascii) (s : string) :
  has_char c (lstrip s) = true -> has_char c s = true.
Proof.
  induction s as [|a s IH]; simpl; [discriminate|].
  destruct (is_space a); [|exact (fun H => H)].
  intros H. rewrite (IH H). apply orb_true_r.
Qed.

Lemma rstrip_head (s : string) (c : ascii) (r : string) :
  rstrip s = String c r -> first_char s = Some c.
Proof.
  destruct s as [|a s]; simpl; [discriminate|].
  destruct (rstrip s); [destruct (is_space a)|]; congruence.
Qed.

Lemma rstrip_single_spaced (s : string) :
  single_spaced s = true -> single_spaced (rstrip s) = true.
Proof.
  induction s as [|a s IH]; intros H; [reflexivity|]. simpl.
  destruct (rstrip s) as [|c r] eqn:Hr.
  - destruct (is_space a); reflexivity.
  - pose proof (rstrip_head _ _ _ Hr) as Hh.
    apply single_spaced_cons; [apply IH; eapply single_spaced_tail; exact H|].
    destruct s as [|c' s']; [discriminate|]. simpl in Hh. injection Hh as ->.
    rewrite single_spaced_eq in H. apply andb_prop in H as [H _].
    apply negb_true_iff, andb_false_iff in H.
    destruct H as [H|H]; [right; exact H | left].
    simpl. intros E. injection E as ->. discriminate.
Qed.

Lemma rstrip_has_char (c : ascii) (s : string) :
  has_char c (rstrip s) = true -> has_char c s = true.
Proof.
  induction s as [|a s IH]; simpl; [discriminate|].
  destruct (rstrip s) as [|c' r].
  - destruct (is_space a); simpl; [discriminate|].
    rewrite orb_false_r. intros ->. reflexivity.
  - simpl in *. destruct (Ascii.eqb a c); [reflexivity|]. exact IH.
Qed.

Lemma lstrip_last_char (s : string) (c : ascii) :
  last_char s = Some c -> is_space c = false -> last_char (lstrip s) = Some c.
Proof.
  induction s as [|a s IH]; intros Hl Hc; [discriminate|]. simpl.
  destruct (is_space a) eqn:Ha; [|exact Hl].
  apply IH; [|exact Hc]. destruct s as [|a' s']; [|exact Hl].
  simpl in Hl. congruence.
Qed.

Lemma rstrip_last_char (s : string) (c : ascii) :
  last_char s = Some c -> is_space c = false -> last_char (rstrip s) = Some c.
Proof.
  induction s as [|a s IH]; intros Hl Hc; [discriminate|]. simpl.
  destruct s as [|a' s'].
  - simpl in *. injection Hl as ->. rewrite Hc. reflexivity.
  - specialize (IH Hl Hc). destruct (rstrip (String a' s')) as [|c' r]; [discriminate|].
    exact IH.
Qed.

Lemma ends_sentence_strip (s : string) :
  ends_sentence s = true -> ends_sentence (strip s) = true.
Proof.
  unfold ends_sentence. destruct (last_char s) as [c|] eqn:Hl; [|discriminate].
  intros Hp. assert (Hc : is_space c = false).
  { simpl in Hp. repeat (apply orb_prop in Hp as [Hp|Hp]); try discriminate;
      apply Ascii.eqb_eq in Hp; subst c; reflexivity. }
  unfold strip. rewrite (rstrip_last_char _ c); [exact Hp | | exact Hc].
  apply lstrip_last_char; assumption.
Qed.

(** C10. The answer [_post_process_answer] returns contains no newline and
    no two consecutive spaces and, unless it is empty, ends with a full
    stop, an exclamation mark or a question mark; the empty answer is
    returned unchanged. *)
Theorem post_process_answer_shape (answer : string) :
  has_char newline (_post_process_answer answer) = false /\
  single_spaced (_post_process_answer answer) = true /\
  (_post_process_answer answer <> "" ->
   ends_sentence (_post_process_answer answer) = true) /\
  _post_process_answer "" = "".
Proof.
  unfold _post_process_answer.
  set (a := sub_runs is_space space false
              (sub_runs is_newline space false (remove_prefix answer))).
  assert (Hnl : has_char newline a = false).
  { destruct (has_char newline a) eqn:H; [|reflexivity].
    apply collapse_chars in H. destruct H as [H|H]; discriminate. }
  assert (Hss : single_spaced a = true) by apply collapse_single_spaced.
  split; [|split; [|split; [|reflexivity]]].
  - destruct (has_char newline (strip _)) eqn:H; [|reflexivity].
    apply rstrip_has_char, lstrip_has_char in H.
    destruct (nonempty a && negb (ends_sentence a)); [|congruence].
    rewrite has_char_append, Hnl in H. discriminate.
  - apply rstrip_single_spaced, lstrip_single_spaced.
    destruct (nonempty a && negb (ends_sentence a)); [|exact Hss].
    apply single_spaced_dot. exact Hss.
  - destruct (nonempty a && negb (ends_sentence a)) eqn:Hcase.
    + intros _. apply ends_sentence_strip. unfold ends_sentence.
      rewrite last_char_dot. reflexivity.
    + intros Hne. apply ends_sentence_strip.
      destruct a as [|c a']; [exfalso; apply Hne; reflexivity|].
      simpl in Hcase. apply negb_false_iff in Hcase. exact Hcase.
Qed.

Section PipelineFacts.

Variable World : Type.
Variable get_relevant_context : string -> nat -> M World string.
Variable generate_text : string -> string -> M World string.
Variable generate_content : string -> M World string.
Variable _preprocess_query : string -> string.
Variable _extract_relevant_sections : string -> string -> string.
Variable _build_prompt : string -> string -> string.

Lemma try_except_returns {A : Type} (m : M World A) (handler : string -> M World A) :
  (forall e, returns (handler e)) -> returns (try_except World m handler).
Proof.
  intros Hh w. unfold try_except. destruct (m w) as [[a|e] w']; [eauto | apply Hh].
Qed.

Lemma ret_returns {A : Type} (a : A) : returns (ret World a).
Proof. intros w. exists a, w. reflexivity. Qed.

Lemma gemini_direct_returns (query context : string) :
  returns (_generate_answer_gemini_direct World generate_content _build_prompt
             query context).
Proof. apply try_except_returns. intros e. apply ret_returns. Qed.

Lemma generate_answer_returns (query context : string) :
  returns (_generate_answer World generate_text generate_content _build_prompt
             query context).
Proof. apply try_except_returns. intros e. apply ret_returns. Qed.

Lemma process_query_returns (query : string) (document_text : option string) :
  returns (process_query World get_relevant_context generate_text generate_content
             _preprocess_query _extract_relevant_sections _build_prompt
             query document_text).
Proof. apply try_except_returns. intros e. apply ret_returns. Qed.

Lemma gather_returns (tasks : list (M World string)) :
  Forall returns tasks ->
  forall w, exists l w', gather World tasks w = (Ok l, w') /\ length l = length tasks.
Proof.
  induction 1 as [|t rest Ht _ IH]; intros w; simpl.
  - exists [], w. auto.
  - unfold bind at 1. destruct (Ht w) as (a & w1 & ->).
    unfold bind at 1. destruct (IH w1) as (l & w2 & -> & Hl).
    exists (a :: l), w2. simpl. auto.
Qed.

(** C8. [process_query] returns an answer in every world, whatever the
    retrieval and generation collaborators do; when retrieval raises, and
    when both the gateway and the direct model fail to produce text, the
    answer is an apology; a batch of questions yields one answer per
    question. *)
Theorem process_query_never_raises (query : string) (document_text : option string)
    (w : World) :
  let process := process_query World get_relevant_context generate_text
                   generate_content _preprocess_query _extract_relevant_sections
                   _build_prompt in
  (exists answer w', process query document_text w = (Ok answer, w')) /\
  (forall e w1,
     get_relevant_context (_preprocess_query query) 2 w = (Raise e, w1) ->
     exists answer, process query document_text w = (Ok answer, w1) /\
       apologetic answer = true) /\
  (forall retrieved w0 e1 w1 r w2,
     get_relevant_context (_preprocess_query query) 2 w = (Ok retrieved, w0) ->
     let context := context_or_sections _extract_relevant_sections
                      query retrieved document_text in
     generate_text query context w0 = (Raise e1, w1) ->
     generate_content (_build_prompt query context) w1 = (r, w2) ->
     r = Ok "" \/ (exists e2, r = Raise e2) ->
     exists answer, process query document_text w = (Ok answer, w2) /\
       apologetic answer = true) /\
  (forall questions document,
     exists answers w',
       answer_batch World get_relevant_context generate_text generate_content
         _preprocess_query _extract_relevant_sections _build_prompt
         questions document w = (Ok answers, w') /\
       length answers = length questions).
Proof.
  intros process. split; [|split; [|split]].
  - apply process_query_returns.
  - intros e w1 H. exists (processing_error e). split; [|reflexivity].
    unfold process, process_query, try_except, bind. rewrite H. reflexivity.
  - intros retrieved w0 e1 w1 r w2 H0 context H1 H2 Hr.
    unfold process, process_query, _generate_answer, _generate_answer_gemini_direct,
      try_except, bind. rewrite H0. fold context. rewrite H1, H2.
    destruct Hr as [->|[e2 ->]]; simpl; eexists; split; reflexivity.
  - intros questions document. unfold answer_batch.
    edestruct gather_returns as (l & w' & Hl & Hn);
      [| exists l, w'; split; [exact Hl | rewrite Hn, length_map; reflexivity]].
    apply List.Forall_forall. intros t Ht.
    apply in_map_iff in Ht as (q & <- & _). apply process_query_returns.
Qed.

End PipelineFacts.

(** Five questions, the third of which cannot be answered: five answers,
    the third an apology. *)
Example batch_resilience :
  Examples.answer_sample_batch ["q1"; "q2"; "q3"; "q4"; "q5"] 0
  = (Ok ["The grace period is 30 days.";
         "The grace period is 30 days.";
         QueryProcessor.technical_issue;
         "The grace period is 30 days.";
         "The grace period is 30 days."], 11).
Proof. vm_compute. reflexivity. Qed.

Example post_process_examples :
  _post_process_answer "Answer:  The grace
 period

is 30   days" = "The grace period is 30 days." /\
  _post_process_answer "response: ok!" = "ok!" /\
  _post_process_answer "The grace period is 30 days.
" = "The grace period is 30 days. ." /\
  _post_process_answer " Answer: x" = "Answer: x." /\
  _post_process_answer "
" = ".".
Proof. repeat split; reflexivity. Qed.

End QueryProcessorFacts.


(** ** Further facts about the gateway *)

Module RegistryFacts.
Import MultiAPI Registry MultiAPIFacts.

Ltac distinct_strings :=
  match goal with
  | |- NoDup ?l => let l' := eval vm_compute in l in change (NoDup l')
  end;
  repeat (constructor;
          [rewrite ?not_elem_of_cons; repeat split;
           first [discriminate | apply not_elem_of_nil]|]);
  constructor.

(** X1. The registry [setup_providers] builds never holds two providers
    of the same name, whatever keys are configured; it holds at most six
    providers, and a provider without an embedding model is a Perplexity
    one. *)
Theorem setup_providers_distinct_names (cfg : Settings)
    (openai_available huggingface_available : bool) :
  NoDup (map name (setup_providers cfg openai_available huggingface_available)) /\
  length (setup_providers cfg openai_available huggingface_available) <= 6 /\
  (forall p, In p (setup_providers cfg openai_available huggingface_available) ->
     embedding_model p = None -> type p = perplexity).
Proof.
  unfold setup_providers. cbn [gemini_providers].
  destruct (usable_gemini_key (Some (gemini_api_key cfg)));
    destruct (gemini_api_key_2 cfg) as [k2|];
    try destruct (usable_gemini_key (Some k2));
    destruct (gemini_api_key_3 cfg) as [k3|];
    try destruct (usable_gemini_key (Some k3));
    destruct (openai_available && key_set (openai_api_key cfg));
    destruct (key_set (perplexity_api_key cfg));
    destruct (huggingface_available && key_set (huggingface_api_key cfg));
    (split; [distinct_strings | split; [cbn; lia|]]);
    intros p Hin Hemb; cbn in Hin;
    repeat (destruct Hin as [<-|Hin]; [first [discriminate Hemb | reflexivity]|]);
    contradiction.
Qed.

End RegistryFacts.

Module DispatchFacts.
Import MultiAPI Registry MultiAPIFacts.

#[local] Hint Rewrite @result_add_call @service_add_call @clock_add_call
  @calls_add_call : run.

(** X2. A cooldown set at time [t] for [m] minutes makes the provider
    unavailable at every time before [t + 60 m] and available again from
    then on, the entry being removed by that check; providers of another
    name are as available as they were. *)
Theorem cooldown_round_trip (s : MultiAPIService) (p : provider) (t m : Z) :
  let s' := set_provider_cooldown s t p m in
  (forall now, (now < t + m * 60)%Z -> is_provider_available s' now p = (false, s')) /\
  (forall now, (t + m * 60 <= now)%Z ->
     fst (is_provider_available s' now p) = true /\
     rate_limit_cooldown (snd (is_provider_available s' now p)) !! name p = None) /\
  (forall q now, name q <> name p ->
     fst (is_provider_available s' now q) = fst (is_provider_available s now q)).
Proof.
  intros s'.
  assert (L : rate_limit_cooldown s' !! name p = Some (t + m * 60)%Z)
    by apply lookup_insert_eq.
  split; [|split].
  - intros now H. apply not_available_before_expiry with (t + m * 60)%Z; assumption.
  - intros now H. rewrite (available_after_expiry s' p _ now L H). simpl.
    split; [reflexivity | apply lookup_delete_eq].
  - intros q now Hne. unfold is_provider_available. simpl.
    rewrite lookup_insert_ne by congruence.
    destruct (rate_limit_cooldown s !! name q) as [e|]; [|reflexivity].
    destruct (now <? e)%Z; reflexivity.
Qed.

Lemma loop_calls_sublist {A : Type} (body : provider -> attempt A) (n : nat) :
  forall s now,
    map who (calls_of (fallback_loop body n s now))
      `sublist_of` rotation (current_provider_index s) (length (api_providers s)) n.
Proof.
  induction n as [|n IH]; intros s now; [constructor|].
  rewrite rotation_S. simpl.
  destruct (api_providers s !! current_provider_index s) as [p|] eqn:Hp.
  2:{ apply sublist_nil_l. }
  assert (H0 : (current_provider_index s + 0) mod length (api_providers s)
               = current_provider_index s).
  { rewrite Nat.add_0_r. apply Nat.mod_small. eapply lookup_lt_Some. exact Hp. }
  rewrite H0.
  destruct (is_provider_available s now p) as [a s1] eqn:Hav.
  destruct (available_frame _ _ _ _ _ Hav) as (Hprov & Hidx & _).
  assert (Hskip : forall t,
    map who (calls_of (fallback_loop body n (advance s1) t))
      `sublist_of` current_provider_index s
         :: rotation ((current_provider_index s + 1) mod length (api_providers s))
              (length (api_providers s)) n).
  { intros t. apply sublist_cons. specialize (IH (advance s1) t).
    simpl in IH. rewrite Hprov, Hidx in IH. exact IH. }
  destruct a; [destruct (body p) as [r|]; [destruct (outcome r) as [v|msg]|]|]; auto.
  - apply sublist_skip, sublist_nil_l.
  - run_simpl. rewrite map_cons. apply sublist_skip.
    specialize (IH (on_failure s1 (now + Z.of_N (elapsed r)) p msg)
                  (now + Z.of_N (elapsed r))%Z).
    destruct (on_failure_frame s1 (now + Z.of_N (elapsed r)) p msg) as (F1 & F2 & _).
    rewrite F1, F2, Hprov, Hidx in IH. exact IH.
Qed.

Lemma dispatch_calls_sublist {A : Type} (body : provider -> attempt A)
    (local : reply A) (s : MultiAPIService) (now : Z) :
  map who (calls_of (dispatch body local s now))
    `sublist_of` rotation (current_provider_index s) (length (api_providers s))
                   (length (api_providers s)).
Proof.
  unfold dispatch.
  destruct (local_llm_available s); [destruct (outcome local)|];
    [apply sublist_nil_l | apply loop_calls_sublist | apply loop_calls_sublist].
Qed.

Lemma rotation_NoDup (c size : nat) : c < size -> NoDup (rotation c size size).
Proof.
  intros Hc. apply NoDup_ListNoDup.
  apply (Permutation_NoDup (Permutation_sym (rotation_perm c size Hc))).
  apply seq_NoDup.
Qed.

Lemma dispatch_once_each {A : Type} (body : provider -> attempt A)
    (local : reply A) (s : MultiAPIService) (now : Z) :
  cursor_in_range s ->
  NoDup (map who (calls_of (dispatch body local s now))) /\
  length (calls_of (dispatch body local s now)) <= length (api_providers s).
Proof.
  intros Hr. pose proof (dispatch_calls_sublist body local s now) as Hsub.
  split.
  - destruct Hr as [Hnil|Hlt].
    + rewrite Hnil in Hsub. simpl in Hsub. apply sublist_nil_r in Hsub.
      rewrite Hsub. constructor.
    + eapply sublist_NoDup; [apply rotation_NoDup; exact Hlt | exact Hsub].
  - apply sublist_length in Hsub. rewrite length_map in Hsub.
    unfold rotation in Hsub. rewrite length_map, length_seq in Hsub. exact Hsub.
Qed.

(** X3. With the cursor inside the registry, one dispatch
    ([generate_text] or [generate_embeddings]) calls no registry provider
    twice and makes at most as many calls as there are providers. *)
Theorem dispatch_calls_each_provider_once {Emb : Type} (b : backend Emb)
    (s : MultiAPIService) (now : Z) :
  cursor_in_range s ->
  (forall prompt context,
     NoDup (map who (calls_of (generate_text b prompt context s now))) /\
     length (calls_of (generate_text b prompt context s now))
       <= length (api_providers s)) /\
  (forall texts,
     NoDup (map who (calls_of (generate_embeddings b texts s now))) /\
     length (calls_of (generate_embeddings b texts s now))
       <= length (api_providers s)).
Proof.
  intros Hr. split; intros; apply dispatch_once_each; exact Hr.
Qed.

Lemma guard_later (x : string) (e : Z) (s : MultiAPIService) (now now' : Z) :
  expiry_guard x e s now -> (now <= now')%Z -> expiry_guard x e s now'.
Proof.
  intros [G|G] Hle; [left; lia | right; exact G].
Qed.

(** The guard on a cooldown expiry survives the loop. *)
Lemma loop_keeps_guard {A : Type} (body : provider -> attempt A)
    (x : string) (e : Z) (n : nat) :
  forall s now,
    expiry_guard x e s now ->
    expiry_guard x e (service_of (fallback_loop body n s now))
                     (clock_of (fallback_loop body n s now)).
Proof.
  induction n as [|n IH]; intros s now G; simpl; [exact G|].
  destruct (api_providers s !! current_provider_index s) as [p|]; [|exact G].
  destruct (is_provider_available s now p) as [a s1] eqn:Hav.
  destruct (available_guard _ _ _ _ _ _ _ G Hav) as (G1 & Hnow).
  destruct a; [destruct (body p) as [r|]; [destruct (outcome r) as [v|msg]|]|].
  - apply guard_later with now; [exact G1 | unfold clock_of; simpl; lia].
  - run_simpl. apply IH. apply (on_failure_guard x e s1 now); auto. lia.
  - apply IH. apply advance_guard. exact G1.
  - apply IH. apply advance_guard. exact G1.
Qed.

(** A rate-limit failure during the loop leaves the guard on its expiry in
    force when the loop ends. *)
Lemma loop_failure_sets_guard {A : Type} (body : provider -> attempt A) (n : nat) :
  forall s now c q r msg,
    In c (calls_of (fallback_loop body n s now)) ->
    callee s c = Some q -> body q = Invoke r -> outcome r = Raise msg ->
    is_rate_limit_error msg = true ->
    expiry_guard (name q) (started c + Z.of_N (elapsed r) + 300)
      (service_of (fallback_loop body n s now))
      (clock_of (fallback_loop body n s now)).
Proof.
  unfold callee.
  induction n as [|n IH]; intros s now c q r msg Hin Hq Hb Ho Hrl; simpl in Hin;
    [contradiction|].
  simpl.
  destruct (api_providers s !! current_provider_index s) as [p|] eqn:Hp;
    [|contradiction].
  destruct (is_provider_available s now p) as [a s1] eqn:Hav.
  destruct (available_frame _ _ _ _ _ Hav) as (Hprov & _ & _).
  assert (Hrest : forall s' t,
            api_providers s' = api_providers s ->
            In c (calls_of (fallback_loop body n s' t)) ->
            expiry_guard (name q) (started c + Z.of_N (elapsed r) + 300)
              (service_of (fallback_loop body n s' t))
              (clock_of (fallback_loop body n s' t))).
  { intros s' t E Hin'. eapply IH; eauto. rewrite E. exact Hq. }
  destruct a; [destruct (body p) as [r0|] eqn:Hb0; [destruct (outcome r0) as [v|msg0] eqn:Ho0|]|].
  - destruct Hin as [<-|[]]. simpl in Hq.
    assert (q = p) by congruence. subst q.
    assert (r = r0) by congruence. subst r0. congruence.
  - run_simpl. destruct Hin as [<-|Hin].
    + simpl in Hq. assert (q = p) by congruence. subst q.
      assert (r = r0) by congruence. subst r0.
      assert (msg0 = msg) by congruence. subst msg0.
      apply loop_keeps_guard. right.
      exists (now + Z.of_N (elapsed r) + 300)%Z. simpl started.
      destruct (on_failure_frame s1 (now + Z.of_N (elapsed r)) p msg) as (_ & _ & ->).
      rewrite Hrl. split; [apply lookup_insert_eq | lia].
    + apply Hrest; [|exact Hin].
      destruct (on_failure_frame s1 (now + Z.of_N (elapsed r0)) p msg0) as (-> & _).
      exact Hprov.
  - apply Hrest; [simpl; exact Hprov | exact Hin].
  - apply Hrest; [simpl; exact Hprov | exact Hin].
Qed.

Lemma dispatch_respects_guard {A : Type} (body : provider -> attempt A)
    (local : reply A) (s : MultiAPIService) (now : Z) (x : string) (e : Z) :
  expiry_guard x e s now ->
  forall c q, In c (calls_of (dispatch body local s now)) ->
    callee s c = Some q -> name q = x -> (e <= started c)%Z.
Proof.
  intros G c q Hin Hq Hx. unfold dispatch in Hin.
  destruct (local_llm_available s); [destruct (outcome local)|].
  - destruct Hin.
  - eapply loop_respects_expiry; [|exact Hin|exact Hq|exact Hx].
    apply guard_later with now; [exact G | lia].
  - eapply loop_respects_expiry; eauto.
Qed.

Lemma dispatch_keeps_guard {A : Type} (body : provider -> attempt A)
    (local : reply A) (s : MultiAPIService) (now : Z) (x : string) (e : Z) :
  expiry_guard x e s now ->
  expiry_guard x e (service_of (dispatch body local s now))
                   (clock_of (dispatch body local s now)).
Proof.
  intros G. unfold dispatch.
  destruct (local_llm_available s); [destruct (outcome local)|].
  - apply guard_later with now; [exact G | unfold clock_of; simpl; lia].
  - apply loop_keeps_guard. apply guard_later with now; [exact G | lia].
  - apply loop_keeps_guard. exact G.
Qed.

(** Further dispatches keep the registry and the guard. *)
Lemma later_on_keeps_guard (s : MultiAPIService) (now : Z) (x : string) (e : Z)
    (s' : MultiAPIService) (t : Z) :
  History.later_on s now s' t ->
  expiry_guard x e s now ->
  api_providers s' = api_providers s /\ expiry_guard x e s' t.
Proof.
  induction 1 as [|s' t t' _ IH Hle|A body local s' t _ IH]; intros G.
  - split; [reflexivity | exact G].
  - destruct (IH G) as (Hp & G'). split; [exact Hp|].
    apply guard_later with t; assumption.
  - destruct (IH G) as (Hp & G'). split.
    + rewrite dispatch_providers. exact Hp.
    + apply dispatch_keeps_guard. exact G'.
Qed.

(** X4. When a call made by one dispatch raises a rate-limit error, no
    later dispatch on the same service, whether it is the next one or
    comes after any number of others, calls a provider of that name
    earlier than 300 seconds after the failure. *)
Theorem rate_limited_provider_rests {A B : Type}
    (body : provider -> attempt A) (local : reply A)
    (body' : provider -> attempt B) (local' : reply B)
    (s s' : MultiAPIService) (now later : Z)
    (c : call) (q : provider) (r : reply A) (msg : string) :
  let first := dispatch body local s now in
  In c (calls_of first) ->
  callee s c = Some q -> body q = Invoke r -> outcome r = Raise msg ->
  is_rate_limit_error msg = true ->
  History.later_on (service_of first) (clock_of first) s' later ->
  forall c' q', In c' (calls_of (dispatch body' local' s' later)) ->
    callee s c' = Some q' ->
    name q' = name q ->
    (started c + Z.of_N (elapsed r) + 5 * 60 <= started c')%Z.
Proof.
  intros first Hin Hq Hb Ho Hrl Hlater c' q' Hin' Hq' Hn.
  assert (G : expiry_guard (name q) (started c + Z.of_N (elapsed r) + 300)
                (service_of first) (clock_of first)).
  { unfold first, dispatch in *.
    destruct (local_llm_available s); [destruct (outcome local)|];
      [destruct Hin | |]; eapply loop_failure_sets_guard; eauto. }
  destruct (later_on_keeps_guard _ _ _ _ _ _ Hlater G) as (Hp & G').
  eapply (dispatch_respects_guard body' local' s' later);
    [exact G' | exact Hin' | | exact Hn].
  unfold callee in *. rewrite Hp. unfold first. rewrite dispatch_providers.
  exact Hq'.
Qed.

(** Every call of the loop goes to a provider for which the body of the
    [try] invokes a capability. *)
Lemma loop_calls_invoke {A : Type} (body : provider -> attempt A) (n : nat) :
  forall s now c, In c (calls_of (fallback_loop body n s now)) ->
    exists p r, callee s c = Some p /\ body p = Invoke r.
Proof.
  unfold callee.
  induction n as [|n IH]; intros s now c Hin; simpl in Hin; [contradiction|].
  destruct (api_providers s !! current_provider_index s) as [p|] eqn:Hp;
    [|contradiction].
  destruct (is_provider_available s now p) as [a s1] eqn:Hav.
  destruct (available_frame _ _ _ _ _ Hav) as (Hprov & _ & _).
  assert (Hrest : forall s' t, api_providers s' = api_providers s ->
            In c (calls_of (fallback_loop body n s' t)) ->
            exists p r, api_providers s !! who c = Some p /\ body p = Invoke r).
  { intros s' t E Hin'. destruct (IH _ _ _ Hin') as (p' & r' & H1 & H2).
    rewrite E in H1. eauto. }
  destruct a; [destruct (body p) as [r0|] eqn:Hb0; [destruct (outcome r0) as [v|msg0]|]|].
  - destruct Hin as [<-|[]]. eauto.
  - run_simpl. destruct Hin as [<-|Hin]; [eauto|].
    eapply Hrest; [|exact Hin].
    destruct (on_failure_frame s1 (now + Z.of_N (elapsed r0)) p msg0) as (-> & _).
    exact Hprov.
  - eapply Hrest; [|exact Hin]. simpl. exact Hprov.
  - eapply Hrest; [|exact Hin]. simpl. exact Hprov.
Qed.

(** X5. [generate_embeddings] never calls a Perplexity provider: every
    call it makes goes to a registry provider of another type. *)
Theorem embeddings_never_call_perplexity {Emb : Type} (b : backend Emb)
    (texts : list string) (s : MultiAPIService) (now : Z) (c : call) :
  In c (calls_of (generate_embeddings b texts s now)) ->
  exists p, callee s c = Some p /\ type p <> perplexity.
Proof.
  unfold generate_embeddings, dispatch. intros Hin.
  assert (H : exists p r, callee s c = Some p /\ embeddings_body b texts p = Invoke r).
  { destruct (local_llm_available s);
      [destruct (outcome (local_generate_embeddings b texts))|];
      [destruct Hin | |]; eapply loop_calls_invoke; exact Hin. }
  destruct H as (p & r & Hp & Hb). exists p. split; [exact Hp|].
  intros Ht. unfold embeddings_body in Hb. rewrite Ht in Hb. discriminate.
Qed.

(** X6. With the cursor inside the registry, after a [generate_text] that
    returned through a registry provider [get_current_provider_info]
    returns the name and type of the provider whose answer was returned,
    and the size of the registry. *)
Theorem provider_info_after_success {Emb : Type} (b : backend Emb)
    (prompt context : string) (s : MultiAPIService) (now : Z) (a : string) :
  cursor_in_range s ->
  result_of (generate_text b prompt context s now) = Ok a ->
  calls_of (generate_text b prompt context s now) <> [] ->
  exists q info,
    get_current_provider_info (service_of (generate_text b prompt context s now))
      = Ok info /\
    In q (api_providers s) /\
    outcome (text_reply b prompt context q) = Ok a /\
    info_name info = name q /\
    info_type info = type_name (type q) /\
    available_providers info = length (api_providers s).
Proof.
  intros Hr Ha Hcalls. unfold generate_text in *.
  pose proof (dispatch_end (text_body b prompt context)
                (local_generate_text b prompt context) s now Hr) as H.
  simpl in H. rewrite Ha in H.
  destruct H as [(_ & _ & Hnil)|(l & c & q & r & _ & Hc & Hq & Hb & Ho)];
    [contradiction|].
  unfold text_body in Hb. injection Hb as <-.
  unfold callee in Hq.
  assert (Hin : In q (api_providers s)).
  { apply list_elem_of_In. eapply list_elem_of_lookup_2. exact Hq. }
  unfold get_current_provider_info.
  rewrite dispatch_providers, Hc.
  destruct (api_providers s) as [|p0 ps] eqn:Hps; [discriminate|].
  cbv iota. rewrite Hq.
  eexists q, _. split; [reflexivity|]. repeat split; auto.
Qed.

Lemma available_cooldown_origin (s s1 : MultiAPIService) (now : Z) (p : provider)
    (a : bool) (x : string) (e : Z) :
  is_provider_available s now p = (a, s1) ->
  rate_limit_cooldown s1 !! x = Some e -> rate_limit_cooldown s !! x = Some e.
Proof.
  unfold is_provider_available.
  destruct (rate_limit_cooldown s !! name p) as [e0|];
    [destruct (now <? e0)%Z|]; intros H; injection H as <- <-; auto.
  simpl. intros L. apply lookup_delete_Some in L. apply L.
Qed.

(** Where the cooldown entries at the end of the loop come from. *)
Lemma loop_cooldown_origin {A : Type} (body : provider -> attempt A) (n : nat) :
  forall s now x e,
    rate_limit_cooldown (service_of (fallback_loop body n s now)) !! x = Some e ->
    rate_limit_cooldown s !! x = Some e \/
    exists c q r msg,
      In c (calls_of (fallback_loop body n s now)) /\ callee s c = Some q /\
      name q = x /\ body q = Invoke r /\ outcome r = Raise msg /\
      is_rate_limit_error msg = true /\
      e = (started c + Z.of_N (elapsed r) + 300)%Z.
Proof.
  unfold callee.
  induction n as [|n IH]; intros s now x e L; simpl in L; [left; exact L|].
  simpl.
  destruct (api_providers s !! current_provider_index s) as [p|] eqn:Hp;
    [|left; exact L].
  destruct (is_provider_available s now p) as [a s1] eqn:Hav.
  destruct (available_frame _ _ _ _ _ Hav) as (Hprov & _ & _).
  pose proof (available_cooldown_origin _ _ _ _ _ x e Hav) as Hback.
  assert (Hrest : forall s' t,
            api_providers s' = api_providers s ->
            rate_limit_cooldown (service_of (fallback_loop body n s' t)) !! x = Some e ->
            rate_limit_cooldown s' !! x = Some e \/
            exists c q r msg,
              In c (calls_of (fallback_loop body n s' t)) /\
              api_providers s !! who c = Some q /\
              name q = x /\ body q = Invoke r /\ outcome r = Raise msg /\
              is_rate_limit_error msg = true /\
              e = (started c + Z.of_N (elapsed r) + 300)%Z).
  { intros s' t E L'. destruct (IH _ _ _ _ L') as [H|H]; [left; exact H|].
    right. rewrite E in H. exact H. }
  destruct a; [destruct (body p) as [r0|] eqn:Hb0; [destruct (outcome r0) as [v|msg0] eqn:Ho0|]|].
  - left. auto.
  - run_simpl.
    destruct (on_failure_frame s1 (now + Z.of_N (elapsed r0)) p msg0) as (F1 & _ & F3).
    destruct (Hrest _ _ (eq_trans F1 Hprov) L) as [H|(c & q & r & msg & Hin & H)].
    + rewrite F3 in H. destruct (is_rate_limit_error msg0) eqn:Hrl; [|left; auto].
      destruct (decide (name p = x)) as [Heq|Hne].
      * subst x. rewrite lookup_insert_eq in H. injection H as <-.
        right. exists (mk_call (current_provider_index s) now), p, r0, msg0.
        simpl. repeat split; auto.
      * rewrite lookup_insert_ne in H by exact Hne. left. auto.
    + right. exists c, q, r, msg. split; [right; exact Hin | exact H].
  - destruct (Hrest (advance s1) now Hprov L) as [H|(c & q & r & msg & H)];
      [left; auto | right; eauto 10].
  - destruct (Hrest (advance s1) now Hprov L) as [H|(c & q & r & msg & H)];
      [left; auto | right; eauto 10].
Qed.

(** X7. Every cooldown entry found after a dispatch was in the table
    before it, or belongs to a provider that the dispatch called and that
    raised a rate-limit error, and expires 300 seconds after that failure:
    errors of other kinds and successes put nothing in cooldown. *)
Theorem cooldown_entries_come_from_rate_limits {A : Type}
    (body : provider -> attempt A) (local : reply A)
    (s : MultiAPIService) (now : Z) (x : string) (e : Z) :
  rate_limit_cooldown (service_of (dispatch body local s now)) !! x = Some e ->
  rate_limit_cooldown s !! x = Some e \/
  exists c q r msg,
    In c (calls_of (dispatch body local s now)) /\ callee s c = Some q /\
    name q = x /\ body q = Invoke r /\ outcome r = Raise msg /\
    is_rate_limit_error msg = true /\
    e = (started c + Z.of_N (elapsed r) + 5 * 60)%Z.
Proof.
  unfold dispatch.
  destruct (local_llm_available s); [destruct (outcome local)|];
    [left; assumption | |]; apply loop_cooldown_origin.
Qed.

(** X3 at a registry of three providers that all fail. *)
Lemma dispatch_calls_each_provider_once_witness :
  cursor_in_range Examples.three_providers /\
  NoDup (map who (calls_of
    (generate_text Examples.all_down "q" "c" Examples.three_providers 0))) /\
  length (calls_of (generate_text Examples.all_down "q" "c" Examples.three_providers 0))
    <= 3.
Proof.
  assert (H : cursor_in_range Examples.three_providers) by (right; simpl; lia).
  split; [exact H|].
  exact (proj1 (dispatch_calls_each_provider_once Examples.all_down
                  Examples.three_providers 0 H) "q" "c").
Defined.

(** X4 for three text requests: the first Gemini key is out of quota at
    the first, the second is answered by the other provider, and at the
    third, 400 seconds later, every provider fails. *)
Lemma rate_limited_provider_rests_witness :
  let first := generate_text Examples.gemini_out_of_quota "q" "c" Examples.two_providers 0 in
  let second := generate_text Examples.gemini_out_of_quota "q2" "c" (service_of first) 10 in
  let third := generate_text Examples.all_down "q3" "c" (service_of second) 400 in
  In (mk_call 0 0) (calls_of first) /\
  In (mk_call 0 401) (calls_of third) /\
  forall c' q',
    In c' (calls_of third) ->
    callee Examples.two_providers c' = Some q' ->
    name q' = "gemini_1" -> (302 <= started c')%Z.
Proof.
  intros first second third.
  assert (Hin : In (mk_call 0 0) (calls_of first)) by (vm_compute; auto).
  split; [exact Hin|]. split; [vm_compute; auto|].
  apply (rate_limited_provider_rests
           (text_body Examples.gemini_out_of_quota "q" "c")
           (local_generate_text Examples.gemini_out_of_quota "q" "c")
           (text_body Examples.all_down "q3" "c")
           (local_generate_text Examples.all_down "q3" "c")
           Examples.two_providers (service_of second) 0 400 (mk_call 0 0)
           Examples.gemini_1
           (mk_reply (Raise "Error 429: Quota exceeded for this key") 2)
           "Error 429: Quota exceeded for this key"
           Hin eq_refl eq_refl eq_refl eq_refl).
  apply History.later_on_wait with (clock_of second); [|vm_compute; discriminate].
  apply (History.later_on_dispatch (service_of first) (clock_of first) string
           (text_body Examples.gemini_out_of_quota "q2" "c")
           (local_generate_text Examples.gemini_out_of_quota "q2" "c")
           (service_of first) 10).
  apply History.later_on_wait with (clock_of first); [|vm_compute; discriminate].
  apply History.later_on_here.
Defined.

(** X5 with the cursor on the Perplexity provider. *)
Lemma embeddings_never_call_perplexity_witness :
  In (mk_call 0 0) (calls_of (generate_embeddings Examples.all_down ["t"]
                                (with_index Examples.three_providers 2) 0)) /\
  exists p, callee (with_index Examples.three_providers 2) (mk_call 0 0) = Some p /\
            type p <> perplexity.
Proof.
  assert (Hin : In (mk_call 0 0) (calls_of (generate_embeddings Examples.all_down ["t"]
                                (with_index Examples.three_providers 2) 0))).
  { vm_compute. auto. }
  split; [exact Hin|].
  exact (embeddings_never_call_perplexity _ _ _ _ _ Hin).
Defined.

(** X6 after a request answered by the second provider. *)
Lemma provider_info_after_success_witness :
  exists q info,
    get_current_provider_info
      (service_of (generate_text Examples.gemini_out_of_quota "q" "c"
                     Examples.two_providers 0)) = Ok info /\
    In q (api_providers Examples.two_providers) /\
    outcome (text_reply Examples.gemini_out_of_quota "q" "c" q) = Ok "30 days" /\
    info_name info = name q /\
    info_type info = type_name (type q) /\
    available_providers info = 2.
Proof.
  apply (provider_info_after_success Examples.gemini_out_of_quota "q" "c"
           Examples.two_providers 0 "30 days").
  - right. simpl. lia.
  - reflexivity.
  - vm_compute. discriminate.
Defined.

(** X7 for the entry that the quota error of the first Gemini key leaves. *)
Lemma cooldown_entries_come_from_rate_limits_witness :
  let body := text_body Examples.gemini_out_of_quota "q" "c" in
  let local := local_generate_text Examples.gemini_out_of_quota "q" "c" in
  let out := dispatch body local Examples.two_providers 0 in
  rate_limit_cooldown (service_of out) !! "gemini_1" = Some 302%Z /\
  (rate_limit_cooldown Examples.two_providers !! "gemini_1" = Some 302%Z \/
   exists c q r msg,
     In c (calls_of out) /\ callee Examples.two_providers c = Some q /\
     name q = "gemini_1" /\ body q = Invoke r /\ outcome r = Raise msg /\
     is_rate_limit_error msg = true /\
     302%Z = (started c + Z.of_N (elapsed r) + 5 * 60)%Z).
Proof.
  intros body local out.
  assert (H : rate_limit_cooldown (service_of out) !! "gemini_1" = Some 302%Z)
    by reflexivity.
  split; [exact H|].
  exact (cooldown_entries_come_from_rate_limits body local Examples.two_providers 0
           "gemini_1" 302 H).
Defined.

End DispatchFacts.

(** ** Further facts about the vector store *)

Module VectorStoreMoreFacts.
Import VectorStore VectorStoreIO VectorStoreFacts.

Section Loading.

Context {Vec : Type}.
Variable encode : list string -> result (list Vec).
Variable disk_writable : bool.

Lemma set_embeddings_fields (cs : list (DocumentChunk Vec)) :
  forall rows, length cs <= length rows ->
    map id (set_embeddings cs rows) = map id cs /\
    map content (set_embeddings cs rows) = map content cs /\
    map embedding (set_embeddings cs rows) = map Some (firstn (length cs) rows) /\
    length (set_embeddings cs rows) = length cs.
Proof.
  unfold set_embeddings.
  induction cs as [|c cs IH]; intros rows Hlen; simpl; [auto|].
  destruct rows as [|row rows]; simpl in *; [lia|].
  destruct (IH rows) as (H1 & H2 & H3 & H4); [lia|].
  rewrite H1, H2, H3, H4. auto.
Qed.

Lemma save_index_fields (s : store Vec) :
  index (_save_index disk_writable s) = index s /\
  chunks (_save_index disk_writable s) = chunks s /\
  _document_hash (_save_index disk_writable s) = _document_hash s /\
  (disk_writable = true -> disk (_save_index disk_writable s) = Some (index s, chunks s)).
Proof.
  unfold _save_index. destruct disk_writable; simpl; repeat split; auto; discriminate.
Qed.

(** X8. A load that embeds and succeeds hands the contents of the chunks
    to the embedding service in one batch and stores the chunks with
    their ids and contents in order, chunk i carrying row i of the
    result; the index holds all rows, the hash is recorded and, when the
    disk can be written, index and chunks are saved. *)
Theorem add_documents_stores_rows (s s' : store Vec)
    (cs : list (DocumentChunk Vec)) (h : option string)
    (batches : list (list string)) :
  add_documents encode disk_writable s cs h = (Ok tt, s', batches) ->
  batches <> [] ->
  exists rows,
    encode (map content cs) = Ok rows /\
    length cs <= length rows /\
    batches = [map content cs] /\
    index s' = rows /\
    map id (chunks s') = map id cs /\
    map content (chunks s') = map content cs /\
    map embedding (chunks s') = map Some (firstn (length cs) rows) /\
    _document_hash s' = h /\
    (disk_writable = true -> disk s' = Some (index s', chunks s')).
Proof.
  unfold add_documents. intros H Hb.
  destruct cs as [|c cs]; [inversion H; subst; contradiction|].
  destruct (truthy h && hash_eqb (_document_hash s) h && (0 <? length (chunks s))%nat);
    [inversion H; subst; contradiction|].
  destruct (encode (map content (c :: cs))) as [rows|msg]; [|discriminate].
  destruct (length rows <? length (c :: cs))%nat eqn:Hrows; [discriminate|].
  apply Nat.ltb_ge in Hrows. inversion H; subst s' batches; clear H.
  destruct (set_embeddings_fields (c :: cs) rows Hrows) as (H1 & H2 & H3 & _).
  match goal with |- context [_save_index _ ?x] =>
    destruct (save_index_fields x) as (S1 & S2 & S3 & S4) end.
  exists rows. rewrite S1, S2, S3. simpl index. simpl chunks.
  repeat split; auto.
Qed.

Lemma cache_miss_on_empty_store (s : store Vec) (cs : list (DocumentChunk Vec))
    (h : option string) :
  chunks s = [] -> cs <> [] ->
  snd (add_documents encode disk_writable s cs h) = [map content cs].
Proof.
  intros Hc Hcs. unfold add_documents. destruct cs as [|c cs]; [contradiction|].
  rewrite Hc. replace (0 <? length (@nil (DocumentChunk Vec)))%nat with false
    by reflexivity.
  rewrite andb_false_r.
  destruct (encode (map content (c :: cs))) as [rows|msg]; [|reflexivity].
  destruct (length rows <? length (c :: cs))%nat; reflexivity.
Qed.

(** X9. A load that raises leaves the store without chunks and with an
    empty index, while the recorded hash and the saved files stay as they
    were; the next load of any document, the one with the recorded hash
    included, goes to the embedding service again. *)
Theorem add_documents_failure_empties_store (s s' : store Vec)
    (cs : list (DocumentChunk Vec)) (h : option string) (msg : string)
    (batches : list (list string)) :
  add_documents encode disk_writable s cs h = (Raise msg, s', batches) ->
  chunks s' = [] /\ index s' = [] /\
  _document_hash s' = _document_hash s /\ disk s' = disk s /\
  batches = [map content cs] /\
  (forall cs' h', cs' <> [] ->
     snd (add_documents encode disk_writable s' cs' h') = [map content cs']).
Proof.
  intros H. unfold add_documents in H.
  destruct cs as [|c cs]; [discriminate|].
  destruct (truthy h && hash_eqb (_document_hash s) h && (0 <? length (chunks s))%nat);
    [discriminate|].
  assert (Hgoal : forall s1 : store Vec, chunks s1 = [] ->
            forall cs' h', cs' <> [] ->
              snd (add_documents encode disk_writable s1 cs' h') = [map content cs'])
    by (intros; apply cache_miss_on_empty_store; assumption).
  destruct (encode (map content (c :: cs))) as [rows|msg'].
  - destruct (length rows <? length (c :: cs))%nat; [|discriminate].
    inversion H; subst; repeat split; auto.
  - inversion H; subst; repeat split; auto.
Qed.

(** X10. When the embedding service returns one row per text, the index
    and the chunk list have the same size after every [add_documents],
    however it ends, if they had before: [get_stats] reports equal
    numbers. *)
Theorem index_size_matches_chunks (s : store Vec) (cs : list (DocumentChunk Vec))
    (h : option string) :
  (forall texts rows, encode texts = Ok rows -> length rows = length texts) ->
  index_size (get_stats s) = total_chunks (get_stats s) ->
  index_size (get_stats (snd (fst (add_documents encode disk_writable s cs h))))
  = total_chunks (get_stats (snd (fst (add_documents encode disk_writable s cs h)))).
Proof.
  intros Henc Hs. unfold add_documents.
  destruct cs as [|c cs]; [exact Hs|].
  destruct (truthy h && hash_eqb (_document_hash s) h && (0 <? length (chunks s))%nat);
    [exact Hs|].
  destruct (encode (map content (c :: cs))) as [rows|msg] eqn:He; [|reflexivity].
  destruct (length rows <? length (c :: cs))%nat eqn:Hrows; [reflexivity|].
  apply Nat.ltb_ge in Hrows. cbn [fst snd].
  match goal with |- context [_save_index _ ?x] =>
    destruct (save_index_fields x) as (S1 & S2 & _) end.
  unfold get_stats. cbn [index_size total_chunks]. rewrite S1, S2.
  cbn [index chunks]. unfold ntotal, IndexFlatIP_add, IndexFlatIP_reset. simpl app.
  destruct (set_embeddings_fields (c :: cs) rows Hrows) as (_ & _ & _ & ->).
  rewrite (Henc _ _ He), length_map. reflexivity.
Qed.

(** X11. A process started on the files a successful load has saved
    finds that load's index and chunks again but no document hash, so the
    first load after the restart embeds again whatever its hash. *)
Theorem restart_restores_chunks_not_hash (s s' : store Vec)
    (cs : list (DocumentChunk Vec)) (h : option string)
    (batches : list (list string)) :
  add_documents encode true s cs h = (Ok tt, s', batches) ->
  batches <> [] ->
  exists restarted,
    initialize (Ok tt) true (new_store (disk s')) = Ok restarted /\
    index restarted = index s' /\
    chunks restarted = chunks s' /\
    _document_hash restarted = None /\
    (forall cs' h', cs' <> [] ->
       snd (add_documents encode true restarted cs' h') = [map content cs']).
Proof.
  intros H Hb.
  assert (Hdisk : disk s' = Some (index s', chunks s')).
  { revert H Hb. unfold add_documents.
    destruct cs as [|c cs]; [intros H Hb; inversion H; subst; contradiction|].
    destruct (truthy h && hash_eqb (_document_hash s) h && (0 <? length (chunks s))%nat);
      [intros H Hb; inversion H; subst; contradiction|].
    destruct (encode (map content (c :: cs))) as [rows|msg]; [|discriminate].
    destruct (length rows <? length (c :: cs))%nat; [discriminate|].
    intros H _. inversion H; subst. reflexivity. }
  eexists. split; [reflexivity|]. unfold _load_index, new_store. simpl.
  rewrite Hdisk. simpl. repeat split.
  intros cs' h' Hcs'. unfold add_documents.
  destruct cs' as [|c' cs']; [contradiction|]. cbn [_document_hash].
  assert (Hmiss : truthy h' && hash_eqb None h' = false).
  { destruct h' as [[|a x]|]; reflexivity. }
  rewrite Hmiss. cbn [andb].
  destruct (encode (map content (c' :: cs'))) as [rows|msg]; [|reflexivity].
  destruct (length rows <? length (c' :: cs'))%nat; reflexivity.
Qed.

End Loading.

Section Retrieval.

Context {Vec Score : Type}.
Variable inner : Vec -> Vec -> Score.
Variable score_geb : Score -> Score -> bool.
Variable encode_query : string -> result Vec.
Variable format_score : Score -> string.

Lemma search_length (s : store Vec) (query : string) (qv : Vec) (top_k : nat) :
  ntotal (index s) = length (chunks s) ->
  encode_query query = Ok qv ->
  exists results,
    search inner score_geb encode_query s query top_k = Ok results /\
    length results = Nat.min top_k (length (chunks s)).
Proof.
  intros Hsize Hq. unfold search.
  destruct (chunks s) as [|c cs] eqn:Hcs.
  - exists []. split; [reflexivity|]. simpl. lia.
  - rewrite Hq. eexists. split; [reflexivity|]. rewrite <- Hcs. rewrite <- Hcs in Hsize.
    set (k := Nat.min top_k (length (chunks s))).
    set (ranked := rank_hits score_geb (all_hits inner (index s) qv)).
    pose proof (rank_hits_perm score_geb (all_hits inner (index s) qv)) as Hperm.
    fold ranked in Hperm.
    assert (Hvalid : Forall (fun h => fst h < length (chunks s)) (firstn k ranked)).
    { rewrite List.Forall_forall. intros h Hin. rewrite <- Hsize.
      apply (all_hits_index inner) with qv. apply (Permutation_in _ Hperm).
      apply (firstn_In _ k). exact Hin. }
    destruct (results_from_valid (chunks s) (firstn k ranked) 0 Hvalid) as (H1 & _).
    unfold IndexFlatIP_search. fold ranked. fold k. rewrite H1, length_firstn.
    pose proof (Permutation_length Hperm) as Hl.
    rewrite (all_hits_length inner), Hsize in Hl. rewrite Hl. unfold k. lia.
Qed.

Lemma context_append_assoc (a b c : string) : (a ++ b) ++ c = a ++ (b ++ c).
Proof.
  induction a as [|x a IH]; [reflexivity|].
  rewrite !TextFacts.append_cons, IH. reflexivity.
Qed.

Lemma join_starts_with (sep prefix : string) (parts : list string) :
  match parts with
  | [] => True
  | part :: _ => Text.startswith prefix part = true
  end ->
  parts <> [] -> Text.startswith prefix (join sep parts) = true.
Proof.
  destruct parts as [|part rest]; [contradiction|]. intros H _.
  destruct rest as [|part' rest']; [exact H|].
  cbn [join]. apply TextFacts.startswith_spec in H as [post ->].
  apply TextFacts.startswith_spec. eexists. apply context_append_assoc.
Qed.

(** X12. [get_relevant_context] never raises. It returns the empty
    string when the store holds no chunks, when the query cannot be
    embedded and when no chunk is asked for; on a store that holds chunks,
    one indexed vector per chunk, a query that embeds and at least one
    chunk asked for, it returns a text that begins with the score
    annotation of the best chunk. *)
Theorem get_relevant_context_empty_or_scored (s : store Vec) (query : string)
    (max_chunks : nat) :
  let context := get_relevant_context inner score_geb encode_query format_score
                   s query max_chunks in
  (chunks s = [] -> context = "") /\
  ((exists msg, encode_query query = Raise msg) -> context = "") /\
  (max_chunks = 0 -> context = "") /\
  (forall qv, chunks s <> [] -> ntotal (index s) = length (chunks s) ->
     encode_query query = Ok qv -> 0 < max_chunks ->
     Text.startswith "[Score: " context = true).
Proof.
  intros context. unfold context, get_relevant_context.
  split; [|split; [|split]].
  - intros Hc. unfold search. rewrite Hc. reflexivity.
  - intros [msg Hq]. unfold search. destruct (chunks s); [reflexivity|].
    rewrite Hq. reflexivity.
  - intros ->. unfold search. destruct (chunks s); [reflexivity|].
    destruct (encode_query query); reflexivity.
  - intros qv Hne Hsize Hq Hk.
    destruct (search_length s query qv max_chunks Hsize Hq) as (results & -> & Hlen).
    destruct results as [|r rest].
    + simpl in Hlen. destruct (chunks s); [contradiction | simpl in Hlen; lia].
    + apply join_starts_with; [|discriminate].
      cbn [map]. apply TextFacts.startswith_spec. eexists. unfold context_part.
      reflexivity.
Qed.

End Retrieval.

(** X8 at the first load of three chunks. *)
Lemma add_documents_stores_rows_witness :
  add_documents Examples.encode true fresh
    [Examples.chunk_0; Examples.chunk_1; Examples.chunk_2]
    (Some "9e107d9d372bb6826bd81d3542a419d6")
  = (Ok tt, Examples.loaded,
     [["The grace period is 30 days."; "Maternity cover starts after 24 months.";
       "A grace of 15 days applies to renewals."]]) /\
  exists rows,
    Examples.encode
      (map content [Examples.chunk_0; Examples.chunk_1; Examples.chunk_2]) = Ok rows /\
    index Examples.loaded = rows /\
    map embedding (chunks Examples.loaded) = map Some (firstn 3 rows) /\
    disk Examples.loaded = Some (index Examples.loaded, chunks Examples.loaded).
Proof.
  assert (H : add_documents Examples.encode true fresh
    [Examples.chunk_0; Examples.chunk_1; Examples.chunk_2]
    (Some "9e107d9d372bb6826bd81d3542a419d6")
  = (Ok tt, Examples.loaded,
     [["The grace period is 30 days."; "Maternity cover starts after 24 months.";
       "A grace of 15 days applies to renewals."]])) by reflexivity.
  split; [exact H|].
  destruct (add_documents_stores_rows Examples.encode true _ _ _ _ _ H)
    as (rows & H1 & _ & _ & H4 & _ & _ & H7 & _ & H9); [discriminate|].
  exists rows. repeat split; auto.
Defined.

(** X9 at a load that fails on a store holding three chunks. *)
Lemma add_documents_failure_empties_store_witness :
  let failing := fun _ : list string => @Raise (list (list Z)) "503 Service Unavailable" in
  let s' := snd (fst (add_documents failing true Examples.loaded [Examples.chunk_1] None)) in
  chunks s' = [] /\ index s' = [] /\
  _document_hash s' = Some "9e107d9d372bb6826bd81d3542a419d6" /\
  snd (add_documents failing true s' [Examples.chunk_0]
         (Some "9e107d9d372bb6826bd81d3542a419d6"))
    = [["The grace period is 30 days."]].
Proof.
  intros failing s'.
  destruct (add_documents_failure_empties_store failing true Examples.loaded s'
              [Examples.chunk_1] None "503 Service Unavailable"
              [["Maternity cover starts after 24 months."]] eq_refl)
    as (H1 & H2 & H3 & _ & _ & H6).
  split; [exact H1|]. split; [exact H2|]. split; [exact H3|].
  apply (H6 [Examples.chunk_0]). discriminate.
Defined.

(** X10 at the first load of three chunks. *)
Lemma index_size_matches_chunks_witness :
  index_size (get_stats Examples.loaded) = total_chunks (get_stats Examples.loaded).
Proof.
  apply (index_size_matches_chunks Examples.encode true fresh
           [Examples.chunk_0; Examples.chunk_1; Examples.chunk_2]
           (Some "9e107d9d372bb6826bd81d3542a419d6")).
  - intros texts rows H. injection H as <-. apply length_map.
  - reflexivity.
Defined.

(** X11 at the files saved by the first load of three chunks. *)
Lemma restart_restores_chunks_not_hash_witness :
  exists restarted,
    initialize (Ok tt) true (new_store (disk Examples.loaded)) = Ok restarted /\
    index restarted = index Examples.loaded /\
    chunks restarted = chunks Examples.loaded /\
    _document_hash restarted = None /\
    (forall cs' h', cs' <> [] ->
       snd (add_documents Examples.encode true restarted cs' h') = [map content cs']).
Proof.
  apply (restart_restores_chunks_not_hash Examples.encode fresh Examples.loaded
           [Examples.chunk_0; Examples.chunk_1; Examples.chunk_2]
           (Some "9e107d9d372bb6826bd81d3542a419d6")
           [["The grace period is 30 days."; "Maternity cover starts after 24 months.";
             "A grace of 15 days applies to renewals."]]).
  - reflexivity.
  - discriminate.
Defined.

End VectorStoreMoreFacts.

(** ** Further facts about the query processor *)

Module QueryTextFacts.
Import Text QueryProcessor QueryText TextFacts QueryProcessorFacts.

Lemma length_append (a b : string) :
  String.length (a ++ b) = String.length a + String.length b.
Proof.
  induction a as [|c a IH]; [reflexivity|].
  rewrite append_cons. simpl. rewrite IH. reflexivity.
Qed.

Lemma append_assoc (a b c : string) : (a ++ b) ++ c = a ++ (b ++ c).
Proof.
  induction a as [|x a IH]; [reflexivity|].
  rewrite !append_cons, IH. reflexivity.
Qed.

Lemma append_empty_r (a : string) : a ++ "" = a.
Proof.
  induction a as [|x a IH]; [reflexivity|]. rewrite append_cons, IH. reflexivity.
Qed.

Lemma lstrip_length (s : string) : String.length (lstrip s) <= String.length s.
Proof.
  induction s as [|c s IH]; simpl; [lia|].
  destruct (is_space c); simpl; lia.
Qed.

Lemma rstrip_length (s : string) : String.length (rstrip s) <= String.length s.
Proof.
  induction s as [|c s IH]; simpl; [lia|].
  destruct (rstrip s) as [|c' r]; [destruct (is_space c)|]; simpl in *; lia.
Qed.

(** White space at the end does not survive [rstrip]. *)
Lemma rstrip_break (s : string) : rstrip (s ++ paragraph_break) = rstrip s.
Proof.
  induction s as [|c s IH]; [reflexivity|].
  rewrite append_cons. simpl. rewrite IH. reflexivity.
Qed.

Lemma lstrip_append (a b : string) :
  lstrip (a ++ b) = match lstrip a with
                    | EmptyString => lstrip b
                    | String _ _ => lstrip a ++ b
                    end.
Proof.
  induction a as [|c a IH]; [reflexivity|].
  rewrite append_cons. simpl. destruct (is_space c); [exact IH|].
  rewrite append_cons. reflexivity.
Qed.

Lemma strip_break_length (body : string) :
  String.length (strip (body ++ paragraph_break)) <= String.length body.
Proof.
  unfold strip. rewrite lstrip_append.
  destruct (lstrip body) as [|c r] eqn:Hl.
  - simpl. lia.
  - rewrite rstrip_break. pose proof (rstrip_length (String c r)).
    pose proof (lstrip_length body). rewrite Hl in *. lia.
Qed.

(** What the filling loop keeps true of [context]: it is empty, or a text
    of at most [max_length] characters followed by one paragraph break. *)
Lemma take_paragraphs_fits (max_length : nat) (l : list (nat * string)) :
  forall context,
    (context = "" \/
     exists body, context = body ++ paragraph_break /\ String.length body <= max_length) ->
    take_paragraphs max_length context l = "" \/
    exists body, take_paragraphs max_length context l = body ++ paragraph_break /\
      String.length body <= max_length.
Proof.
  induction l as [|[score para] l IH]; intros context H; simpl; [exact H|].
  destruct (Nat.leb_spec (String.length context + String.length para) max_length)
    as [Hfit|_]; [|exact H].
  apply IH. right. exists (context ++ para). split.
  - symmetry. apply append_assoc.
  - rewrite length_append. exact Hfit.
Qed.

(** X13. The text [_extract_relevant_sections] returns is never longer
    than [max_length] characters. *)
Theorem extract_relevant_sections_bounded (query document_text : string)
    (max_length : nat) :
  String.length (_extract_relevant_sections query document_text max_length)
  <= max_length.
Proof.
  unfold _extract_relevant_sections.
  destruct (take_paragraphs_fits max_length
              (sort_scored (scored_paragraphs query document_text)) "")
    as [->|(body & -> & Hlen)]; [left; reflexivity | simpl; lia |].
  pose proof (strip_break_length body). lia.
Qed.

Lemma insert_scored_perm (x : nat * string) (l : list (nat * string)) :
  Permutation (insert_scored x l) (x :: l).
Proof.
  induction l as [|y l IH]; simpl; [reflexivity|].
  destruct (fst y <=? fst x)%nat; [reflexivity|].
  rewrite IH. apply perm_swap.
Qed.

Lemma sort_scored_perm (l : list (nat * string)) : Permutation (sort_scored l) l.
Proof.
  induction l as [|x l IH]; simpl; [reflexivity|].
  rewrite insert_scored_perm. apply perm_skip. exact IH.
Qed.

Lemma insert_scored_sorted (x : nat * string) (l : list (nat * string)) :
  StronglySorted (fun a b => fst b <= fst a) l ->
  StronglySorted (fun a b => fst b <= fst a) (insert_scored x l).
Proof.
  induction 1 as [|y l Hs IH Hall]; simpl.
  - constructor; constructor.
  - destruct (Nat.leb_spec (fst y) (fst x)) as [Hle|Hgt].
    + constructor; [constructor; assumption|].
      constructor; [exact Hle|].
      rewrite List.Forall_forall in *. intros z Hz. specialize (Hall z Hz). lia.
    + constructor; [exact IH|].
      rewrite List.Forall_forall in *. intros z Hz.
      apply (Permutation_in _ (insert_scored_perm x l)) in Hz.
      destruct Hz as [<-|Hz]; [lia | apply (Hall z Hz)].
Qed.

Lemma sort_scored_sorted (l : list (nat * string)) :
  StronglySorted (fun a b => fst b <= fst a) (sort_scored l).
Proof.
  induction l as [|x l IH]; simpl; [constructor | apply insert_scored_sorted; exact IH].
Qed.

Lemma take_paragraphs_prefix (max_length : nat) (l : list (nat * string)) :
  forall context,
    exists chosen rest, l = (chosen ++ rest)%list /\
      take_paragraphs max_length context l = context ++ paragraphs_text chosen.
Proof.
  induction l as [|[score para] l IH]; intros context; simpl.
  - exists [], []. split; [reflexivity|]. simpl. symmetry. apply append_empty_r.
  - destruct (String.length context + String.length para <=? max_length)%nat.
    + destruct (IH (context ++ para ++ paragraph_break)) as (chosen & rest & -> & ->).
      exists ((score, para) :: chosen), rest. split; [reflexivity|].
      simpl. rewrite !append_assoc. reflexivity.
    + exists [], ((score, para) :: l). split; [reflexivity|].
      simpl. symmetry. apply append_empty_r.
Qed.

Lemma scored_paragraphs_In (query document_text : string) (x : nat * string) :
  In x (scored_paragraphs query document_text) ->
  In (snd x) (split_on newline document_text) /\
  20 <= String.length (strip (snd x)) /\
  fst x = paragraph_score (query_terms query) (snd x) /\
  0 < fst x.
Proof.
  unfold scored_paragraphs. intros H. apply in_flat_map in H as (para & Hpara & H).
  destruct (Nat.ltb_spec (String.length (strip para)) 20) as [|Hlen]; [destruct H|].
  destruct (Nat.ltb_spec 0 (paragraph_score (query_terms query) para)) as [Hpos|];
    [|destruct H].
  destruct H as [<-|[]]. simpl. auto.
Qed.

(** X14. The text [_extract_relevant_sections] returns is made of whole
    lines of the document, each followed by a blank line, with the white
    space at both ends removed: the lines chosen have at least 20
    characters apart from surrounding white space and contain at least one
    word of the query, and no line left out contains more words of the
    query than a line that was chosen. *)
Theorem extract_relevant_sections_takes_best (query document_text : string)
    (max_length : nat) :
  exists chosen rest,
    Permutation (chosen ++ rest) (scored_paragraphs query document_text) /\
    _extract_relevant_sections query document_text max_length
      = strip (paragraphs_text chosen) /\
    (forall x, In x chosen ->
       In (snd x) (split_on newline document_text) /\
       20 <= String.length (strip (snd x)) /\
       fst x = paragraph_score (query_terms query) (snd x) /\
       0 < fst x) /\
    (forall x y, In x chosen -> In y rest -> fst y <= fst x).
Proof.
  unfold _extract_relevant_sections.
  pose proof (sort_scored_perm (scored_paragraphs query document_text)) as Hperm.
  pose proof (sort_scored_sorted (scored_paragraphs query document_text)) as Hsort.
  destruct (take_paragraphs_prefix max_length
              (sort_scored (scored_paragraphs query document_text)) "")
    as (chosen & rest & Hsplit & ->).
  rewrite Hsplit in Hperm, Hsort.
  exists chosen, rest. split; [exact Hperm|]. split; [reflexivity|]. split.
  - intros x Hx. apply (scored_paragraphs_In query document_text).
    apply (Permutation_in _ Hperm). apply in_or_app. left. exact Hx.
  - clear Hperm Hsplit. induction chosen as [|z chosen IH]; intros x y Hx Hy;
      [destruct Hx|].
    simpl in Hsort. inversion Hsort as [|? ? Hs' Hall]; subst.
    destruct Hx as [<-|Hx]; [|apply IH; assumption].
    rewrite List.Forall_forall in Hall. apply Hall. apply in_or_app. auto.
Qed.

Lemma all_chars_has_char (test : ascii -> bool) (s : string) (c : ascii) :
  all_chars test s = true -> has_char c s = true -> test c = true.
Proof.
  induction s as [|a s IH]; simpl; [discriminate|].
  intros H Hc. apply andb_prop in H as [Ha Hs].
  apply orb_prop in Hc as [Hc|Hc]; [|auto].
  apply Ascii.eqb_eq in Hc. subst. exact Ha.
Qed.

Lemma has_char_all_chars (test : ascii -> bool) (s : string) :
  (forall c, has_char c s = true -> test c = true) -> all_chars test s = true.
Proof.
  induction s as [|a s IH]; intros H; simpl; [reflexivity|].
  rewrite (H a), IH; [reflexivity | |].
  - intros c Hc. apply H. simpl. rewrite Hc. apply orb_true_r.
  - simpl. rewrite Ascii.eqb_refl. reflexivity.
Qed.

Lemma tidyb_spec (s : string) : tidyb s = true <-> tidy s.
Proof.
  unfold tidyb, tidy, not_space. split.
  - intros H. repeat (apply andb_prop in H as [H ?]).
    split; [assumption|]. split; [|split].
    + intros c Hc Hs.
      pose proof (all_chars_has_char _ s c ltac:(eassumption) Hc) as Ht.
      cbv beta in Ht. rewrite Hs in Ht. simpl in Ht.
      apply Ascii.eqb_eq. exact Ht.
    + intros c Hc. rewrite Hc in *. apply negb_true_iff. assumption.
    + intros c Hc. rewrite Hc in *. apply negb_true_iff. assumption.
  - intros (H1 & H2 & H3 & H4). rewrite H1. simpl.
    rewrite has_char_all_chars.
    + simpl. destruct (first_char s) as [c|];
        [rewrite (H3 c eq_refl)|]; destruct (last_char s) as [c'|];
        try rewrite (H4 c' eq_refl); reflexivity.
    + intros c Hc. destruct (is_space c) eqn:Hs; [|reflexivity].
      rewrite (H2 c Hc Hs). reflexivity.
Qed.

Lemma lstrip_first (s : string) (c : ascii) :
  first_char (lstrip s) = Some c -> is_space c = false.
Proof.
  induction s as [|a s IH]; simpl; [discriminate|].
  destruct (is_space a) eqn:Ha; [exact IH|]. simpl. congruence.
Qed.

Lemma rstrip_first (s : string) (c : ascii) :
  first_char (rstrip s) = Some c -> first_char s = Some c.
Proof.
  destruct (rstrip s) as [|a r] eqn:Hr; simpl; [discriminate|].
  intros H. injection H as <-. eapply rstrip_head. exact Hr.
Qed.

Lemma rstrip_last (s : string) (c : ascii) :
  last_char (rstrip s) = Some c -> is_space c = false.
Proof.
  induction s as [|a s IH]; simpl; [discriminate|].
  destruct (rstrip s) as [|c' r] eqn:Hr.
  - destruct (is_space a) eqn:Ha; simpl; [discriminate | congruence].
  - exact IH.
Qed.

Lemma strip_collapse_tidy (s : string) :
  tidy (strip (sub_runs is_space space false s)).
Proof.
  unfold strip. split; [|split; [|split]].
  - apply rstrip_single_spaced, lstrip_single_spaced, collapse_single_spaced.
  - intros c Hc Hs. apply rstrip_has_char, lstrip_has_char, collapse_chars in Hc.
    destruct Hc as [Hc|Hc]; [exact Hc | congruence].
  - intros c Hc. apply rstrip_first in Hc. eapply lstrip_first. exact Hc.
  - intros c Hc. eapply rstrip_last. exact Hc.
Qed.

Lemma last_char_append (a b : string) :
  last_char (a ++ b) = match b with EmptyString => last_char a | _ => last_char b end.
Proof.
  induction a as [|x a IH]; [destruct b; reflexivity|].
  rewrite append_cons. destruct b as [|y b]; [rewrite append_empty_r; reflexivity|].
  cbn [last_char]. rewrite IH.
  destruct a; [rewrite append_nil; reflexivity | rewrite append_cons; reflexivity].
Qed.

Lemma single_spaced_append (a b : string) :
  single_spaced a = true -> single_spaced b = true ->
  last_char a <> Some space \/ first_char b <> Some space ->
  single_spaced (a ++ b) = true.
Proof.
  induction a as [|x a IH]; intros Ha Hb Hj; [exact Hb|].
  rewrite append_cons. apply single_spaced_cons.
  - apply IH; [eapply single_spaced_tail; exact Ha | exact Hb|].
    destruct a as [|y a]; [left; discriminate | exact Hj].
  - destruct a as [|y a].
    + rewrite append_nil. destruct Hj as [Hj|Hj]; [right | left; exact Hj].
      destruct (Ascii.eqb_spec x space) as [->|]; [|reflexivity].
      exfalso. apply Hj. reflexivity.
    + rewrite append_cons. simpl first_char.
      rewrite single_spaced_eq in Ha. apply andb_prop in Ha as [Ha _].
      apply negb_true_iff, andb_false_iff in Ha.
      destruct Ha as [Ha|Ha]; [right; exact Ha | left].
      intros E. injection E as ->. discriminate.
Qed.

Lemma space_append (b : string) : " " ++ b = String space b.
Proof. reflexivity. Qed.

Lemma tidy_space_append (a b : string) :
  tidy a -> tidy b -> a <> "" -> b <> "" -> tidy (a ++ " " ++ b).
Proof.
  intros (A1 & A2 & A3 & A4) (B1 & B2 & B3 & B4) Ha Hb.
  rewrite space_append.
  assert (Hfb : first_char b <> Some space).
  { intros E. specialize (B3 _ E). rewrite space_is_space in B3. discriminate. }
  assert (Hla : last_char a <> Some space).
  { intros E. specialize (A4 _ E). rewrite space_is_space in A4. discriminate. }
  split; [|split; [|split]].
  - apply single_spaced_append; [exact A1 | | left; exact Hla].
    apply single_spaced_cons; [exact B1 | left; exact Hfb].
  - intros c Hc Hs. rewrite has_char_append, has_char_cons in Hc.
    apply orb_prop in Hc as [Hc|Hc]; [apply A2; assumption|].
    apply orb_prop in Hc as [Hc|Hc]; [|apply B2; assumption].
    apply Ascii.eqb_eq in Hc. congruence.
  - intros c Hc. rewrite first_char_append in Hc.
    destruct a as [|x a]; [contradiction|]. apply A3. exact Hc.
  - intros c Hc. rewrite last_char_append in Hc. cbn [last_char] in Hc.
    destruct b as [|y b]; [contradiction|]. apply B4. exact Hc.
Qed.

Lemma tidy_join (terms : list string) :
  Forall (fun t => tidy t /\ t <> "") terms -> terms <> [] ->
  tidy (VectorStoreIO.join " " terms) /\ VectorStoreIO.join " " terms <> "".
Proof.
  induction 1 as [|t rest [Ht Hne] Hrest IH]; intros Hnil; [contradiction|].
  destruct rest as [|t' rest']; [split; assumption|].
  destruct IH as (IH1 & IH2); [discriminate|].
  cbn [VectorStoreIO.join]. split.
  - apply tidy_space_append; assumption.
  - destruct t; [contradiction | rewrite append_cons; discriminate].
Qed.

Lemma insurance_terms_tidy : Forall (fun t => tidy t /\ t <> "") insurance_terms.
Proof.
  assert (H : forallb (fun t => tidyb t && nonempty t) insurance_terms = true)
    by reflexivity.
  rewrite forallb_forall in H. apply List.Forall_forall. intros t Ht.
  specialize (H t Ht). apply andb_prop in H as [H1 H2].
  split; [apply tidyb_spec; exact H1 | destruct t; [discriminate | discriminate]].
Qed.

Lemma key_terms_tidy (query : string) :
  Forall (fun t => tidy t /\ t <> "") (_extract_key_terms query) /\
  (_extract_key_terms query <> [] -> query <> "").
Proof.
  pose proof insurance_terms_tidy as Hall. rewrite List.Forall_forall in Hall.
  unfold _extract_key_terms. split.
  - apply List.Forall_forall. intros t Ht.
    apply list_elem_of_In, list_elem_of_filter in Ht as [_ Ht].
    apply Hall. apply list_elem_of_In. exact Ht.
  - intros Hne ->. apply Hne. clear Hne.
    assert (H : forall l : list string,
              (forall t, In t l -> t <> "") ->
              filter (fun term => Text.contains term (Text.lower "")) l = []).
    { induction l as [|t l IH]; intros Hl; [reflexivity|].
      rewrite filter_cons. destruct (decide _) as [Hd|_].
      - exfalso. destruct t as [|c t]; [apply (Hl ""); [left|]; reflexivity|].
        simpl in Hd. exact Hd.
      - apply IH. intros t' Ht'. apply Hl. right. exact Ht'. }
    apply H. intros t Ht. apply (Hall t Ht).
Qed.

(** X15. In the query [_preprocess_query] returns the only white space
    is single spaces: it has no leading or trailing white space, no two
    consecutive spaces and no tab or line break, whatever the question
    was. *)
Theorem preprocess_query_tidy (query : string) : tidy (_preprocess_query query).
Proof.
  unfold _preprocess_query.
  set (base := strip (sub_runs is_space space false (remove_stop_words query))).
  assert (Hbase : tidy base) by apply strip_collapse_tidy.
  destruct (key_terms_tidy base) as (Hterms & Hne).
  destruct (_extract_key_terms base) as [|t rest] eqn:Hk; [exact Hbase|].
  destruct (tidy_join (t :: rest) Hterms) as (Hj & Hjne); [discriminate|].
  apply tidy_space_append; [exact Hbase | exact Hj | apply Hne; discriminate | exact Hjne].
Qed.

Lemma post_process_well_formed (answer : string) :
  well_formed_answer (_post_process_answer answer).
Proof.
  unfold well_formed_answer, _post_process_answer.
  set (a := sub_runs is_space space false
              (sub_runs is_newline space false (remove_prefix answer))).
  assert (Hnl : has_char newline a = false).
  { destruct (has_char newline a) eqn:H; [|reflexivity].
    apply collapse_chars in H. destruct H as [H|H]; discriminate. }
  assert (Hss : single_spaced a = true) by apply collapse_single_spaced.
  split; [|split].
  - destruct (has_char newline (strip _)) eqn:H; [|reflexivity].
    apply rstrip_has_char, lstrip_has_char in H.
    destruct (nonempty a && negb (ends_sentence a)); [|congruence].
    rewrite has_char_append, Hnl in H. discriminate.
  - apply rstrip_single_spaced, lstrip_single_spaced.
    destruct (nonempty a && negb (ends_sentence a)); [|exact Hss].
    apply single_spaced_dot. exact Hss.
  - destruct (nonempty a && negb (ends_sentence a)) eqn:Hcase.
    + intros _. apply ends_sentence_strip. unfold ends_sentence.
      rewrite last_char_dot. reflexivity.
    + intros Hne. apply ends_sentence_strip.
      destruct a as [|c a']; [exfalso; apply Hne; reflexivity|].
      simpl in Hcase. apply negb_false_iff in Hcase. exact Hcase.
Qed.

Lemma apologies_well_formed :
  well_formed_answer no_response /\ well_formed_answer technical_issue /\
  well_formed_answer api_limitations.
Proof.
  unfold well_formed_answer. repeat split; try reflexivity.
Qed.

Section Answers.

Variable World : Type.
Variable generate_text : string -> string -> M World string.
Variable generate_content : string -> M World string.
Variable _build_prompt : string -> string -> string.

(** X16. Whatever the gateway and the direct model do, [_generate_answer]
    returns, and what it returns is one line without two consecutive
    spaces that ends with a full stop, an exclamation mark or a question
    mark unless it is empty: the apologies have that form like the
    post-processed answers. *)
Theorem generate_answer_well_formed (query context : string) (w : World) :
  exists answer w',
    _generate_answer World generate_text generate_content _build_prompt
      query context w = (Ok answer, w') /\
    well_formed_answer answer.
Proof.
  destruct apologies_well_formed as (A1 & A2 & A3).
  unfold _generate_answer, _generate_answer_gemini_direct, try_except, bind, ret.
  destruct (generate_text query context w) as [[answer|e] w1].
  - exists (_post_process_answer answer), w1.
    split; [reflexivity | apply post_process_well_formed].
  - destruct (generate_content (_build_prompt query context) w1) as [[text|e'] w2].
    + destruct (nonempty text).
      * eexists _, w2. split; [reflexivity | apply post_process_well_formed].
      * exists no_response, w2. split; [reflexivity | exact A1].
    + exists technical_issue, w2. split; [reflexivity | exact A2].
Qed.

End Answers.

End QueryTextFacts.

(** ** Facts about the embedding service and the request handler *)

Module ServiceFacts.
Import MultiAPI MultiAPIFacts EmbeddingService.

Section EncodeFacts.

Context {Emb : Type}.
Variable b : backend Emb.
Variable _encode_with_gemini : list string -> reply Emb.
Variable _encode_with_sentence_transformers : list string -> bool -> reply Emb.

(** X17. With the provider ["multi"] and the gateway's cursor inside its
    registry, [encode] calls the gateway first. When the gateway returns
    embeddings, [encode] returns them and makes no direct call. When the
    gateway raises, which it does only with its terminal error, the
    direct Gemini call is made: [encode] returns its embeddings, or, when
    it raises as well, raises the gateway's error, never the direct
    call's. The registry calls are the gateway's, the service is left as
    the gateway left it, and the cursor stays inside the registry. *)
Theorem encode_multi_outcomes (svc : service) (texts : list string)
    (normalize : bool) (now : Z) :
  provider svc = "multi" ->
  cursor_in_range (multi_api_service svc) ->
  let gateway := generate_embeddings b texts (multi_api_service svc) now in
  let out := encode b _encode_with_gemini _encode_with_sentence_transformers
               svc texts normalize now in
  (forall embeddings, result_of gateway = Ok embeddings ->
     encode_result out = Ok embeddings /\ direct_call out = false /\
     encode_clock out = clock_of gateway) /\
  (forall e, result_of gateway = Raise e ->
     e = "All API providers failed or are rate limited" /\
     direct_call out = true /\
     encode_result out =
       match outcome (_encode_with_gemini texts) with
       | Ok embeddings => Ok embeddings
       | Raise _ => Raise e
       end /\
     encode_clock out
       = (clock_of gateway + Z.of_N (elapsed (_encode_with_gemini texts)))%Z) /\
  gateway_calls out = calls_of gateway /\
  encode_service out = mk_embedding_service (provider svc) (service_of gateway) /\
  match encode_result out with
  | Ok embeddings =>
      (direct_call out = false /\ result_of gateway = Ok embeddings) \/
      (direct_call out = true /\
       outcome (_encode_with_gemini texts) = Ok embeddings)
  | Raise msg =>
      msg = "All API providers failed or are rate limited" /\
      direct_call out = true /\
      exists e, outcome (_encode_with_gemini texts) = Raise e
  end /\
  cursor_in_range (multi_api_service (encode_service out)).
Proof.
  intros Hp Hr gateway out. unfold out, encode. rewrite Hp. cbn [String.eqb].
  replace (String.eqb "multi" "multi") with true by reflexivity.
  pose proof (dispatch_exhausted (embeddings_body b texts)
                (local_generate_embeddings b texts) (multi_api_service svc) now Hr)
    as (Hres & _).
  pose proof (dispatch_cursor_in_range (embeddings_body b texts)
                (local_generate_embeddings b texts) (multi_api_service svc) now Hr)
    as Hkeep.
  fold (generate_embeddings b texts (multi_api_service svc) now) in Hres, Hkeep.
  fold gateway in Hres, Hkeep. fold gateway. cbv zeta.
  destruct (result_of gateway) as [embeddings|e] eqn:Hgw.
  - cbn [encode_result direct_call encode_clock gateway_calls encode_service
         multi_api_service].
    split; [intros v Hv; injection Hv as <-; auto|].
    split; [intros e He; discriminate|].
    split; [reflexivity|]. split; [reflexivity|].
    split; [left; auto | exact Hkeep].
  - destruct Hres as [[a Ha]|He]; [discriminate|]. injection He as ->.
    split; [intros v Hv; discriminate|].
    destruct (outcome (_encode_with_gemini texts)) as [embeddings|e'] eqn:Hd;
      cbn [encode_result direct_call encode_clock gateway_calls encode_service
           multi_api_service].
    + split; [intros e He; injection He as <-; auto|].
      split; [reflexivity|]. split; [reflexivity|].
      split; [right; auto | exact Hkeep].
    + split; [intros e He; injection He as <-; auto|].
      split; [reflexivity|]. split; [reflexivity|].
      split; [|exact Hkeep]. split; [reflexivity|]. split; [reflexivity|]. eauto.
Qed.

(** With a provider other than ["multi"], ["gemini"] and
    ["sentence-transformers"], [encode] raises the unsupported-provider
    error without calling any service; with ["gemini"] it returns or
    raises what the direct call does and makes no gateway call. *)
Theorem encode_other_providers (svc : service) (texts : list string)
    (normalize : bool) (now : Z) :
  let out := encode b _encode_with_gemini _encode_with_sentence_transformers
               svc texts normalize now in
  (provider svc <> "multi" -> provider svc <> "gemini" ->
   provider svc <> "sentence-transformers" ->
   encode_result out = Raise ("Unsupported provider: " ++ provider svc) /\
   gateway_calls out = [] /\ direct_call out = false /\ encode_service out = svc) /\
  (provider svc = "gemini" ->
   encode_result out = outcome (_encode_with_gemini texts) /\
   gateway_calls out = [] /\ encode_service out = svc).
Proof.
  intros out. unfold out, encode. split.
  - intros H1 H2 H3.
    apply String.eqb_neq in H1, H2, H3. rewrite H1, H2, H3. auto.
  - intros ->. simpl. auto.
Qed.

End EncodeFacts.

Import QueryProcessor QueryProcessorFacts Main.

Section HandlerFacts.

Variable World : Type.
Variable Chunk : Type.
Variable process_document : string -> M World string.
Variable chunk_text : string -> M World (list Chunk).
Variable add_documents : list Chunk -> string -> M World unit.
Variable md5_hexdigest : string -> string.
Variable get_relevant_context : string -> nat -> M World string.
Variable generate_text : string -> string -> M World string.
Variable generate_content : string -> M World string.
Variable _preprocess_query : string -> string.
Variable _extract_relevant_sections : string -> string -> string.
Variable _build_prompt : string -> string -> string.

#[local] Abbreviation handler :=
  (run_query_internal World Chunk process_document chunk_text add_documents
     md5_hexdigest
     (process_query World get_relevant_context generate_text generate_content
        _preprocess_query _extract_relevant_sections _build_prompt)).

(** X18. [run_query_internal] ends in one of two ways. Either the
    document processor, the chunker and the vector store succeed, and it
    returns exactly one answer per question, whatever happens while the
    questions are answered. Or the first of those three that raises
    stops it, and it raises the internal-server error that carries the
    message of that exception. *)
Theorem run_query_internal_outcomes (request : QueryRequest) (w : World) :
  ((exists document_text w1 chunks w2 w3 answers w',
      process_document (documents request) w = (Ok document_text, w1) /\
      chunk_text document_text w1 = (Ok chunks, w2) /\
      add_documents chunks (md5_hexdigest document_text) w2 = (Ok tt, w3) /\
      handler request w = (Ok answers, w') /\
      length answers = length (questions request)) \/
   (exists e w',
      handler request w = (Raise ("Internal server error: " ++ e), w') /\
      (process_document (documents request) w = (Raise e, w') \/
       exists document_text w1,
         process_document (documents request) w = (Ok document_text, w1) /\
         (chunk_text document_text w1 = (Raise e, w') \/
          exists chunks w2,
            chunk_text document_text w1 = (Ok chunks, w2) /\
            add_documents chunks (md5_hexdigest document_text) w2
              = (Raise e, w'))))) /\
  (forall document_text w1 chunks w2 w3,
     process_document (documents request) w = (Ok document_text, w1) ->
     chunk_text document_text w1 = (Ok chunks, w2) ->
     add_documents chunks (md5_hexdigest document_text) w2 = (Ok tt, w3) ->
     exists answers w', handler request w = (Ok answers, w') /\
       length answers = length (questions request)).
Proof.
  assert (Hq : forall document_text w0,
            exists answers w',
              gather World
                (map (fun question =>
                        process_query World get_relevant_context generate_text
                          generate_content _preprocess_query
                          _extract_relevant_sections _build_prompt
                          question (Some document_text))
                     (questions request)) w0 = (Ok answers, w') /\
              length answers = length (questions request)).
  { intros document_text w0.
    edestruct (gather_returns World) as (l & w' & Hl & Hn);
      [| exists l, w'; split; [exact Hl | rewrite Hn, length_map; reflexivity]].
    apply List.Forall_forall. intros t Ht.
    apply in_map_iff in Ht as (q & <- & _). apply process_query_returns. }
  split.
  - unfold run_query_internal, try_except, bind, raise.
    destruct (process_document (documents request) w) as [[document_text|e] w1];
      [|right; exists e, w1; split; [reflexivity | left; reflexivity]].
    destruct (chunk_text document_text w1) as [[chunks|e] w2] eqn:Hc;
      [|right; exists e, w2; split; [reflexivity|];
        right; exists document_text, w1; split; [reflexivity | left; exact Hc]].
    destruct (add_documents chunks (md5_hexdigest document_text) w2)
      as [[[]|e] w3] eqn:Ha;
      [|right; exists e, w3; split; [reflexivity|];
        right; exists document_text, w1; split; [reflexivity|];
        right; exists chunks, w2; split; [exact Hc | exact Ha]].
    destruct (Hq document_text w3) as (answers & w' & -> & Hlen). left.
    exists document_text, w1, chunks, w2, w3, answers, w'. auto.
  - intros document_text w1 chunks w2 w3 H1 H2 H3.
    unfold run_query_internal, try_except, bind. rewrite H1, H2, H3.
    destruct (Hq document_text w3) as (answers & w' & -> & Hlen). eauto.
Qed.

End HandlerFacts.

(** X17 when every registry provider fails and the direct call answers. *)
Lemma encode_multi_outcomes_witness :
  let direct := fun texts : list string =>
                  mk_reply (Ok (map (fun _ => [0; 1]%Z) texts)) 3 in
  let svc := mk_embedding_service "multi" Examples.two_providers in
  let gateway := generate_embeddings Examples.all_down ["t"] Examples.two_providers 0 in
  let out := EmbeddingService.encode Examples.all_down direct (fun _ _ => Examples.no_local)
               svc ["t"] true 0 in
  result_of gateway = Raise "All API providers failed or are rate limited" /\
  direct_call out = true /\
  encode_result out = Ok [[0; 1]%Z] /\
  encode_clock out = 5%Z /\
  gateway_calls out = [mk_call 0 0; mk_call 1 1].
Proof.
  intros direct svc gateway out.
  assert (Hr : cursor_in_range (multi_api_service svc)) by (right; simpl; lia).
  destruct (encode_multi_outcomes Examples.all_down direct
              (fun _ _ => Examples.no_local) svc ["t"] true 0 eq_refl Hr)
    as (_ & Hraise & Hcalls & _).
  assert (Hgw : result_of gateway
                  = Raise "All API providers failed or are rate limited")
    by reflexivity.
  destruct (Hraise _ Hgw) as (_ & Hd & Hres & Hclock).
  split; [exact Hgw|]. split; [exact Hd|]. split; [exact Hres|].
  split; [exact Hclock | exact Hcalls].
Defined.

End ServiceFacts.

(** ** Facts about the batched embedding requests *)

Module GeminiEmbeddingsFacts.
Import GeminiEmbeddings.

Section BatchFacts.

Variable float32 : Type.
Variable norm : list float32 -> float32.
Variable add : float32 -> float32 -> float32.
Variable divide : float32 -> float32 -> float32.
Variable epsilon : float32.
Variable embed_content : string -> result (list float32).

#[local] Abbreviation _generate_gemini_embeddings :=
  (GeminiEmbeddings._generate_gemini_embeddings float32 norm add divide epsilon
     embed_content).
#[local] Abbreviation normalize_rows :=
  (Normalization.normalize_rows float32 norm add divide epsilon).
#[local] Abbreviation embed_each := (GeminiEmbeddings.embed_each float32 embed_content).
#[local] Abbreviation batch_loop := (GeminiEmbeddings.batch_loop float32 embed_content).
#[local] Abbreviation vstack := (GeminiEmbeddings.vstack float32).

#[local] Abbreviation answered :=
  (Forall2 (fun text row => embed_content text = Ok row)).

Lemma embed_each_ok (batch : list string) (rows : list (list float32)) :
  answered batch rows -> embed_each batch = (Ok rows, batch).
Proof.
  induction 1 as [|text row batch rows Ht _ IH]; simpl; [reflexivity|].
  rewrite Ht, IH. reflexivity.
Qed.

Lemma embed_each_fail (pre post : list string) (rows : list (list float32))
    (text msg : string) :
  answered pre rows -> embed_content text = Raise msg ->
  embed_each (pre ++ text :: post)%list
    = (Raise msg, (pre ++ [text])%list).
Proof.
  intros Hpre Ht. induction Hpre as [|t row pre rows Hrow _ IH]; simpl.
  - rewrite Ht. reflexivity.
  - rewrite Hrow, IH. reflexivity.
Qed.

Lemma batch_loop_step (fuel : nat) (remaining : list string) :
  remaining <> [] ->
  batch_loop (S fuel) remaining =
    match embed_each (firstn batch_size remaining) with
    | (Raise msg, sent) => (Raise msg, sent, 0)
    | (Ok rows, sent) =>
        let pause :=
          match skipn batch_size remaining with [] => 0 | _ :: _ => 1 end in
        match batch_loop fuel (skipn batch_size remaining) with
        | (Ok rows', sent', pauses) =>
            (Ok (rows ++ rows')%list, (sent ++ sent')%list, pause + pauses)
        | (Raise msg, sent', pauses) =>
            (Raise msg, (sent ++ sent')%list, pause + pauses)
        end
    end.
Proof.
  destruct remaining; [contradiction|reflexivity].
Qed.

Lemma batch_loop_ok (fuel : nat) :
  forall texts rows,
    length texts <= fuel -> answered texts rows ->
    exists pauses,
      batch_loop fuel texts = (Ok rows, texts, pauses) /\
      (texts = [] -> pauses = 0) /\
      (texts <> [] -> 10 * pauses < length texts <= 10 * pauses + 10).
Proof.
  induction fuel as [|fuel IH]; intros texts rows Hlen Hall.
  - destruct texts; [|simpl in Hlen; lia]. inversion Hall; subst.
    exists 0. split; [reflexivity|]. split; [reflexivity|]. intros Hne.
    contradiction.
  - destruct texts as [|t0 ts].
    { inversion Hall; subst. exists 0. split; [reflexivity|].
      split; [reflexivity|]. intros Hne. contradiction. }
    assert (Hne : t0 :: ts <> []) by discriminate.
    remember (t0 :: ts) as texts eqn:Htexts. clear t0 ts Htexts.
    rewrite (batch_loop_step _ _ Hne). cbv zeta.
    pose proof (Forall2_take _ _ _ batch_size Hall) as Hhead.
    pose proof (Forall2_drop _ _ _ batch_size Hall) as Htail.
    rewrite (embed_each_ok _ _ Hhead).
    destruct (IH (skipn batch_size texts) (skipn batch_size rows)) as (p & Hp & H0 & H1).
    { rewrite length_skipn. unfold batch_size. lia. }
    { exact Htail. }
    rewrite Hp.
    exists (match skipn batch_size texts with [] => 0 | _ :: _ => 1 end + p).
    rewrite !firstn_skipn. split; [reflexivity|]. split; [contradiction|].
    intros _. pose proof (length_skipn batch_size texts) as Hs.
    assert (Hpos : 0 < length texts)
      by (destruct texts; [contradiction|simpl; lia]).
    unfold batch_size in *.
    destruct (skipn 10 texts) as [|x rest] eqn:Hrest.
    + rewrite (H0 eq_refl). simpl in Hs. lia.
    + assert (Hcons : x :: rest <> []) by discriminate.
      specialize (H1 Hcons). simpl length in *. lia.
Qed.

Lemma batch_loop_fail (fuel : nat) :
  forall pre post rows text msg,
    length (pre ++ text :: post)%list <= fuel ->
    answered pre rows -> embed_content text = Raise msg ->
    exists pauses,
      batch_loop fuel (pre ++ text :: post)%list
        = (Raise msg, (pre ++ [text])%list, pauses).
Proof.
  induction fuel as [|fuel IH]; intros pre post rows text msg Hlen Hpre Ht.
  - rewrite length_app in Hlen. simpl in Hlen. lia.
  - assert (Hne : (pre ++ text :: post)%list <> [])
      by (destruct pre; discriminate).
    rewrite (batch_loop_step _ _ Hne). cbv zeta.
    destruct (Nat.lt_ge_cases (length pre) batch_size) as [Hshort|Hlong].
    + rewrite firstn_app.
      replace (firstn batch_size pre) with pre by (symmetry; apply firstn_all2; lia).
      destruct (batch_size - length pre) as [|k] eqn:Hk; [lia|]. cbn [firstn].
      rewrite (embed_each_fail pre (firstn k post) rows text msg Hpre Ht).
      eexists. reflexivity.
    + pose proof (Forall2_take _ _ _ batch_size Hpre) as Hhead.
      pose proof (Forall2_drop _ _ _ batch_size Hpre) as Htail.
      rewrite firstn_app, skipn_app.
      replace (batch_size - length pre) with 0 by lia. cbn [firstn skipn].
      rewrite app_nil_r, (embed_each_ok _ _ Hhead).
      destruct (IH (skipn batch_size pre) post (skipn batch_size rows) text msg)
        as (p & Hp); [|exact Htail|exact Ht|].
      { rewrite length_app in *. rewrite length_skipn. simpl in *.
        unfold batch_size in *. lia. }
      rewrite Hp. eexists. rewrite app_assoc, firstn_skipn. reflexivity.
Qed.

(** X19. [_generate_gemini_embeddings] sends the texts to the service
    one by one in their order, whatever the batch size: when every text is
    answered with a row of one common length, it returns those rows
    normalised, in the order of the texts, after one pause between
    consecutive batches of ten; at the first text the service refuses it
    raises that error and sends nothing further; for an empty list of
    texts it raises without sending anything. *)
Theorem gemini_embeddings_batched (texts : list string) :
  (forall rows dimension,
     texts <> [] -> answered texts rows ->
     Forall (fun row => length row = dimension) rows ->
     exists pauses,
       _generate_gemini_embeddings texts
         = (Ok (normalize_rows rows), texts, pauses) /\
       10 * pauses < length texts <= 10 * pauses + 10) /\
  (forall pre text post rows msg,
     texts = (pre ++ text :: post)%list -> answered pre rows ->
     embed_content text = Raise msg ->
     exists pauses,
       _generate_gemini_embeddings texts
         = (Raise msg, (pre ++ [text])%list, pauses)) /\
  (texts = [] ->
   _generate_gemini_embeddings texts
     = (Raise "need at least one array to concatenate", [], 0)).
Proof.
  split; [|split].
  - intros rows dimension Hne Hall Hdim. unfold _generate_gemini_embeddings.
    destruct (batch_loop_ok (length texts) texts rows (le_n _) Hall)
      as (p & -> & _ & Hp).
    exists p. split; [|apply Hp; exact Hne].
    assert (Hv : vstack rows = Ok rows).
    { unfold vstack. destruct rows as [|row rest].
      - inversion Hall; subst. contradiction.
      - inversion Hdim as [|? ? Hrow Hrest]; subst.
        assert (Hf : forallb (fun r => Nat.eqb (length r) (length row)) rest = true).
        { apply forallb_forall. intros r Hr. apply Nat.eqb_eq.
          rewrite List.Forall_forall in Hrest. apply Hrest. exact Hr. }
        rewrite Hf. reflexivity. }
    rewrite Hv. reflexivity.
  - intros pre text post rows msg -> Hpre Ht. unfold _generate_gemini_embeddings.
    destruct (batch_loop_fail (length (pre ++ text :: post)%list) pre post rows text msg
                (le_n _) Hpre Ht) as (p & ->).
    exists p. reflexivity.
  - intros ->. reflexivity.
Qed.

End BatchFacts.

End GeminiEmbeddingsFacts.
